(** * balance_robot: the LQR balance controller

    A shallow embedding of [src/balance_lqr_controller.cpp] and the
    verification of its specification.

    Numeric model.  The controller computes on C++ [float] and [double]
    values.  They are idealised here as real numbers ([R] of the Standard
    Library, [M_PI] as [PI]): rounding, overflow to infinity and NaN are
    not modelled, so every statement below is a statement about the exact
    arithmetic the code spells out.  The one place where the code leaves
    the floating-point domain, the implicit conversion of [main_loop] to
    the [unsigned int] argument of [sleep], is modelled with its
    truncation.  Where rounding decides what can be said, at the clamp of
    the position target, whose bound is computed in [double] and stored
    in a [float], lines 188 to 198 are modelled a second time, bit for
    bit, on IEEE 754 binary32 and binary64 values ([SpecFloat]).

    Execution model.  The node is single threaded: the subscription
    callbacks only run inside [rclcpp::spin_some], once per iteration of
    the loop of [main].  A run is therefore a sequence of iterations, each
    one given the clock reading of [ros_clock.now()] and the list of
    messages that [spin_some] dispatches. *)

From Stdlib Require Import Reals Lra Lia List String ZArith Bool.
From Stdlib Require Import SpecFloat.
Import ListNotations.

Local Open Scope R_scope.

(** ** Undefined behaviour as an error monad *)

Definition bind {A B : Type} (m : option A) (f : A -> option B) : option B :=
  match m with
  | Some a => f a
  | None => None
  end.

Notation "'perform' x := m 'in' k" := (bind m (fun x => k))
  (at level 10, x name, m at level 100, k at level 200).

(** ** Data: the structs of the controller *)

Record vel_cmd := Vel_cmd {
  forward : R;
  turn : R;
  forward_gain : R;
  turn_gain : R
}.

Record orientation := Orientation {
  roll : R;
  pitch : R;
  yaw : R;
  d_roll : R;
  d_pitch : R;
  d_yaw : R;
  dt : R
}.

Record encoders := Encoders {
  position_left : R;
  position_right : R;
  velocity_left : R;
  velocity_right : R
}.

(** [struct wheel_position]; its fields share their names with those of
    [encoders], hence the prefix. *)
Record wheel_position := Wheel_position {
  wp_position_left : R;
  wp_position_right : R
}.

Record inner_wheel := Inner_wheel {
  position : R;
  velocity : R
}.

(** ** Data: [float [6]] arrays

    A C++ array of six floats is six reals; an index outside [0..5] is
    never formed by the code (the indices are the literals 0 to 5 and the
    loop counter [i < 6]), reading one yields 0 here and writing one is
    ignored. *)

Record arr6 := Arr6 {
  e0 : R; e1 : R; e2 : R; e3 : R; e4 : R; e5 : R
}.

Definition get (a : arr6) (i : nat) : R :=
  match i with
  | 0%nat => e0 a
  | 1%nat => e1 a
  | 2%nat => e2 a
  | 3%nat => e3 a
  | 4%nat => e4 a
  | 5%nat => e5 a
  | _ => 0
  end.

Definition set (a : arr6) (i : nat) (v : R) : arr6 :=
  match i with
  | 0%nat => Arr6 v (e1 a) (e2 a) (e3 a) (e4 a) (e5 a)
  | 1%nat => Arr6 (e0 a) v (e2 a) (e3 a) (e4 a) (e5 a)
  | 2%nat => Arr6 (e0 a) (e1 a) v (e3 a) (e4 a) (e5 a)
  | 3%nat => Arr6 (e0 a) (e1 a) (e2 a) v (e4 a) (e5 a)
  | 4%nat => Arr6 (e0 a) (e1 a) (e2 a) (e3 a) v (e5 a)
  | 5%nat => Arr6 (e0 a) (e1 a) (e2 a) (e3 a) (e4 a) v
  | _ => a
  end.

Notation "a .[ i ]" := (get a i) (at level 1, left associativity, format "a .[ i ]").
Notation "a .[ i <- v ]" := (set a i v)
  (at level 1, left associativity, format "a .[ i  <-  v ]").

(** ** Data: the messages

    The message packages are not part of the source file; the records
    below hold the fields that the controller reads or writes. *)

Definition Time := Z.

Module msg.

(** [sensor_msgs::msg::Joy]: [axes] is a [std::vector<float>]. *)
Record Joy := { axes : list R }.

(** [balance_robot_msgs::msg::Orientation]. *)
Record Orientation := {
  roll : R; pitch : R; yaw : R;
  d_roll : R; d_pitch : R; d_yaw : R;
  dt : R
}.

Record Encoder := { position : R; velocity : R }.

(** [balance_robot_msgs::msg::Encoders]. *)
Record Encoders := { encoder0 : Encoder; encoder1 : Encoder }.

(** One entry of [ParameterEvent::changed_parameters], with the
    [double_value] of its [value]. *)
Record ParameterValue := { name : string; double_value : R }.

Record ParameterEvent := { changed_parameters : list ParameterValue }.

Record Header := { frame_id : string; stamp : Time }.

(** The type of [Balance::roll] and [Balance::velocity]. *)
Record Pid := { setpoint : R; measurement : R; increment : R }.

(** [balance_robot_msgs::msg::Balance]. *)
Record Balance := {
  header : Header;
  roll_pid : Pid;
  velocity_pid : Pid;
  motor : R;
  motor_left : R;
  motor_right : R
}.

(** [balance_robot_msgs::msg::Motors]: the two setpoints. *)
Record Motors := {
  motors_header : Header;
  motor1_setpoint : R;
  motor0_setpoint : R
}.

End msg.

(** ** State: the file-scope variables and the locals of [main] *)

Record globals := Globals {
  main_loop : R;
  velocity_cmd : vel_cmd;
  orientation_imu_measurement : orientation;
  orientation_ow_measurement : orientation;
  encoders_measurement : encoders;
  vel_lowpass : R;
  motor_position : wheel_position;
  combined_inner_wheel : inner_wheel
}.

(** The locals of [main] that live across iterations.  [control_k] is never
    assigned and is the constant below. *)
Record locals := Locals {
  motor_increment : R;
  velocity_lp : R;
  state_x : arr6;
  target_w : arr6
}.

Definition control_k : arr6 :=
  Arr6 (-453.11421438) (-41.03540067) 15.17484972
       (-6.16366411) (-4.47213596) (-4.30609058).

(** The static initialisers.  [orientation{.0, .0, .0, .2}] initialises
    the first four members, so [d_roll] starts at 0.2, and
    value-initialises the rest.  The calls of [declare_parameter] at the
    start of [main] hand these values to the node and drop what it
    returns: they change no variable. *)
Definition init_globals : globals :=
  {| main_loop := 0.08;
     velocity_cmd := Vel_cmd 0 0 0.05 3;
     orientation_imu_measurement := Orientation 0 0 0 0.2 0 0 0;
     orientation_ow_measurement := Orientation 0 0 0 0.2 0 0 0;
     encoders_measurement := Encoders 0 0 0 0;
     vel_lowpass := 20;
     motor_position := Wheel_position 0 0;
     combined_inner_wheel := Inner_wheel 0 0 |}.

Definition init_locals : locals :=
  {| motor_increment := 0;
     velocity_lp := 0;
     state_x := Arr6 0 0 0 0 0 0;
     target_w := Arr6 0.1415 0 0 0 0 0 |}.

(** ** The callbacks *)

(** [joy_topic_callback]; indexing [axes] past its end is undefined. *)
Definition joy_topic_callback (m : msg.Joy) (g : globals) : option globals :=
  perform a1 := nth_error (msg.axes m) 1 in
  perform a0 := nth_error (msg.axes m) 0 in
  let c := velocity_cmd g in
  Some {| main_loop := main_loop g;
          velocity_cmd := Vel_cmd a1 a0 (forward_gain c) (turn_gain c);
          orientation_imu_measurement := orientation_imu_measurement g;
          orientation_ow_measurement := orientation_ow_measurement g;
          encoders_measurement := encoders_measurement g;
          vel_lowpass := vel_lowpass g;
          motor_position := motor_position g;
          combined_inner_wheel := combined_inner_wheel g |}.

Definition orientation_of_msg (m : msg.Orientation) : orientation :=
  {| roll := msg.roll m; pitch := msg.pitch m; yaw := msg.yaw m;
     d_roll := msg.d_roll m; d_pitch := msg.d_pitch m; d_yaw := msg.d_yaw m;
     dt := msg.dt m |}.

Definition orientation_imu_topic_callback (m : msg.Orientation) (g : globals)
  : globals :=
  {| main_loop := main_loop g;
     velocity_cmd := velocity_cmd g;
     orientation_imu_measurement := orientation_of_msg m;
     orientation_ow_measurement := orientation_ow_measurement g;
     encoders_measurement := encoders_measurement g;
     vel_lowpass := vel_lowpass g;
     motor_position := motor_position g;
     combined_inner_wheel := combined_inner_wheel g |}.

Definition orientation_ow_topic_callback (m : msg.Orientation) (g : globals)
  : globals :=
  {| main_loop := main_loop g;
     velocity_cmd := velocity_cmd g;
     orientation_imu_measurement := orientation_imu_measurement g;
     orientation_ow_measurement := orientation_of_msg m;
     encoders_measurement := encoders_measurement g;
     vel_lowpass := vel_lowpass g;
     motor_position := motor_position g;
     combined_inner_wheel := combined_inner_wheel g |}.

Definition cprToRad (cpr_value : R) : R := cpr_value * 2 * PI / 8192.

Definition radToCpr (rad_value : R) : R := rad_value * 8192 / (2 * PI).

Definition encoders_topic_callback (m : msg.Encoders) (g : globals) : globals :=
  let em :=
    {| position_left := cprToRad (msg.position (msg.encoder1 m) * -1);
       position_right := cprToRad (msg.position (msg.encoder0 m));
       velocity_left := cprToRad (msg.velocity (msg.encoder1 m) * -1);
       velocity_right := cprToRad (msg.velocity (msg.encoder0 m)) |} in
  {| main_loop := main_loop g;
     velocity_cmd := velocity_cmd g;
     orientation_imu_measurement := orientation_imu_measurement g;
     orientation_ow_measurement := orientation_ow_measurement g;
     encoders_measurement := em;
     vel_lowpass := vel_lowpass g;
     motor_position := motor_position g;
     combined_inner_wheel :=
       {| position := position_right em;
          velocity := (velocity_right em + velocity_left em) / 2 |} |}.

Definition set_forward_gain (v : R) (g : globals) : globals :=
  let c := velocity_cmd g in
  {| main_loop := main_loop g;
     velocity_cmd := Vel_cmd (forward c) (turn c) v (turn_gain c);
     orientation_imu_measurement := orientation_imu_measurement g;
     orientation_ow_measurement := orientation_ow_measurement g;
     encoders_measurement := encoders_measurement g;
     vel_lowpass := vel_lowpass g;
     motor_position := motor_position g;
     combined_inner_wheel := combined_inner_wheel g |}.

Definition set_turn_gain (v : R) (g : globals) : globals :=
  let c := velocity_cmd g in
  {| main_loop := main_loop g;
     velocity_cmd := Vel_cmd (forward c) (turn c) (forward_gain c) v;
     orientation_imu_measurement := orientation_imu_measurement g;
     orientation_ow_measurement := orientation_ow_measurement g;
     encoders_measurement := encoders_measurement g;
     vel_lowpass := vel_lowpass g;
     motor_position := motor_position g;
     combined_inner_wheel := combined_inner_wheel g |}.

Definition set_main_loop (v : R) (g : globals) : globals :=
  {| main_loop := v;
     velocity_cmd := velocity_cmd g;
     orientation_imu_measurement := orientation_imu_measurement g;
     orientation_ow_measurement := orientation_ow_measurement g;
     encoders_measurement := encoders_measurement g;
     vel_lowpass := vel_lowpass g;
     motor_position := motor_position g;
     combined_inner_wheel := combined_inner_wheel g |}.

(** The body of the loop of [param_change_callback]: three independent
    [if]s on the parameter's name. *)
Definition apply_parameter (g : globals) (p : msg.ParameterValue) : globals :=
  let g :=
    if String.eqb (msg.name p) "vel_cmd.forward_gain"
    then set_forward_gain (msg.double_value p) g else g in
  let g :=
    if String.eqb (msg.name p) "vel_cmd.turn_gain"
    then set_turn_gain (msg.double_value p) g else g in
  if String.eqb (msg.name p) "main_loop"
  then set_main_loop (msg.double_value p) g else g.

Definition param_change_callback (ev : msg.ParameterEvent) (g : globals)
  : globals :=
  fold_left apply_parameter (msg.changed_parameters ev) g.

(** ** The loop of [main], phase by phase *)

(** Lines 181-186: the state vector is read from the sensor variables. *)
Definition read_state (g : globals) (x : arr6) : arr6 :=
  let x := x.[0 <- roll (orientation_imu_measurement g)] in
  let x := x.[1 <- d_roll (orientation_imu_measurement g)] in
  let x := x.[2 <- -1 * pitch (orientation_ow_measurement g)] in
  let x := x.[3 <- -1 * d_pitch (orientation_ow_measurement g)] in
  let x := x.[4 <- position (combined_inner_wheel g)] in
  x.[5 <- velocity (combined_inner_wheel g)].

(** Lines 188-189: the command is integrated into the position target and
    copied into the velocity target. *)
Definition integrate_command (c : vel_cmd) (w : arr6) : arr6 :=
  let w := w.[4 <- w.[4] + forward c * forward_gain c] in
  w.[5 <- forward c * forward_gain c].

(** Lines 191-198, "Limit max delta input": two successive [if]s. *)
Definition limit_delta (x w : arr6) : arr6 :=
  let w := if Rgt_dec w.[4] (x.[4] + PI * 2)
           then w.[4 <- x.[4] + PI * 2] else w in
  if Rlt_dec w.[4] (x.[4] - PI * 2)
  then w.[4 <- x.[4] - PI * 2] else w.

(** Lines 188-198 together. *)
Definition update_target (c : vel_cmd) (x w : arr6) : arr6 :=
  limit_delta x (integrate_command c w).

(** Lines 200-203: [motor_increment = 0] and the loop
    [for (i = 0; i < 6; ++i) motor_increment -= (x[i] - w[i]) * k[i]]. *)
Definition feedback (x w k : arr6) : R :=
  fold_left (fun acc i => acc - (x.[i] - w.[i]) * k.[i]) (seq 0 6) 0.

(** Lines 209-212: the differential for turning. *)
Definition pwm_target_left (c : vel_cmd) (pwm_target : R) : R :=
  pwm_target - turn c * turn_gain c.

Definition pwm_target_right (c : vel_cmd) (pwm_target : R) : R :=
  pwm_target + turn c * turn_gain c.

(** What one iteration computes before it publishes. *)
Record cycle_values := {
  cv_locals : locals;
  pwm_target : R;
  pwm_left : R;
  pwm_right : R
}.

(** Lines 181-212. *)
Definition control_cycle (g : globals) (l : locals) : cycle_values :=
  let x := read_state g (state_x l) in
  let w := update_target (velocity_cmd g) x (target_w l) in
  let u := feedback x w control_k in
  let lp := (velocity_lp l + x.[5]) / 2 in
  let pwm := lp + u * main_loop g in
  {| cv_locals := {| motor_increment := u; velocity_lp := lp;
                     state_x := x; target_w := w |};
     pwm_target := pwm;
     pwm_left := pwm_target_left (velocity_cmd g) pwm;
     pwm_right := pwm_target_right (velocity_cmd g) pwm |}.

(** Lines 214-232: the diagnostic message. *)
Definition balance_msg (now : Time) (v : cycle_values) : msg.Balance :=
  let x := state_x (cv_locals v) in
  {| msg.header := {| msg.frame_id := "robot"; msg.stamp := now |};
     msg.roll_pid := {| msg.setpoint := x.[0]; msg.measurement := x.[1];
                        msg.increment := x.[2] |};
     msg.velocity_pid := {| msg.setpoint := x.[3]; msg.measurement := x.[4];
                            msg.increment := x.[5] |};
     msg.motor := pwm_target v;
     msg.motor_left := pwm_left v;
     msg.motor_right := pwm_right v |}.

(** Lines 234-244: the motor setpoints, the left axis inverted. *)
Definition motors_msg (now : Time) (v : cycle_values) : msg.Motors :=
  {| msg.motors_header := {| msg.frame_id := "robot"; msg.stamp := now |};
     msg.motor1_setpoint := radToCpr (pwm_left v * -1);
     msg.motor0_setpoint := radToCpr (pwm_right v) |}.

(** ** [spin_some] and [sleep] *)

Inductive event :=
| EvJoy (m : msg.Joy)
| EvOrientationImu (m : msg.Orientation)
| EvOrientationOw (m : msg.Orientation)
| EvEncoders (m : msg.Encoders)
| EvParameter (m : msg.ParameterEvent).

Definition dispatch (e : event) (g : globals) : option globals :=
  match e with
  | EvJoy m => joy_topic_callback m g
  | EvOrientationImu m => Some (orientation_imu_topic_callback m g)
  | EvOrientationOw m => Some (orientation_ow_topic_callback m g)
  | EvEncoders m => Some (encoders_topic_callback m g)
  | EvParameter m => Some (param_change_callback m g)
  end.

(** [rclcpp::spin_some(node)]: the pending callbacks run one after the
    other. *)
Fixpoint spin_some (es : list event) (g : globals) : option globals :=
  match es with
  | [] => Some g
  | e :: es => perform g' := dispatch e g in spin_some es g'
  end.

(** The conversion of a floating-point value to an integer type discards
    the fractional part. *)
Definition truncate (x : R) : Z :=
  if Rle_dec 0 x then Int_part x else (- Int_part (- x))%Z.

Definition UINT_MAX : Z := 4294967295.

(** [sleep] is the one of [<unistd.h>], [unsigned int sleep(unsigned int
    seconds)]: the call [sleep(main_loop)] converts the [float] to
    [unsigned int], which is undefined when the truncated value does not
    fit. *)
Definition float_to_unsigned (x : R) : option Z :=
  let z := truncate x in
  if ((0 <=? z) && (z <=? UINT_MAX))%Z then Some z else None.

(** The number of seconds that line 246 asks [sleep] for. *)
Definition sleep_request (g : globals) : option Z :=
  float_to_unsigned (main_loop g).

(** ** Runs *)

Record cycle_input := { now : Time; events : list event }.

Record cycle_output := {
  balance : msg.Balance;
  motors : msg.Motors;
  slept : Z
}.

Definition machine := (globals * locals)%type.

Definition init_machine : machine := (init_globals, init_locals).

(** One iteration of [while (rclcpp::ok())], lines 181-246. *)
Definition loop_body (i : cycle_input) (s : machine)
  : option (machine * cycle_output) :=
  let v := control_cycle (fst s) (snd s) in
  perform g' := spin_some (events i) (fst s) in
  perform secs := sleep_request g' in
  Some ((g', cv_locals v),
        {| balance := balance_msg (now i) v;
           motors := motors_msg (now i) v;
           slept := secs |}).

(** As many iterations as [rclcpp::ok()] allows: one per input. *)
Fixpoint run (inps : list cycle_input) (s : machine)
  : option (machine * list cycle_output) :=
  match inps with
  | [] => Some (s, [])
  | i :: inps =>
      perform r := loop_body i s in
      perform r' := run inps (fst r) in
      Some (fst r', snd r :: snd r')
  end.

(** ** The control law as the specification writes it *)

(** The sum of [f 0], ..., [f (n - 1)]. *)
Fixpoint sum_upto (n : nat) (f : nat -> R) : R :=
  match n with
  | O => 0
  | S n => sum_upto n f + f n
  end.

(** [control = - sum_{i=0..5} gain[i] * (state[i] - target[i])]. *)
Definition control_law (x w k : arr6) : R :=
  - sum_upto 6 (fun i => k.[i] * (x.[i] - w.[i])).

(** ** Runs in which nothing arrives *)

(** The machine after [n] iterations in which no message arrives. *)
Definition idle_trace (s : machine) (n : nat) : machine :=
  Nat.iter n (fun s => (fst s, cv_locals (control_cycle (fst s) (snd s)))) s.

(** ** What is published, and inputs that differ where nothing reads *)

(** What an iteration publishes on the two topics, for as long as the run
    is defined: the messages of an iteration go out before its [spin_some]
    and [sleep]. *)
Fixpoint published (inps : list cycle_input) (s : machine)
  : list (msg.Balance * msg.Motors) :=
  match inps with
  | [] => []
  | i :: inps =>
      let v := control_cycle (fst s) (snd s) in
      (balance_msg (now i) v, motors_msg (now i) v)
        :: match loop_body i s with
           | Some r => published inps (fst r)
           | None => []
           end
  end.

(** Two orientation messages that differ at most in [yaw], [d_yaw], [dt]. *)
Definition orientation_msg_eqv (a b : msg.Orientation) : Prop :=
  msg.roll a = msg.roll b /\ msg.pitch a = msg.pitch b /\
  msg.d_roll a = msg.d_roll b /\ msg.d_pitch a = msg.d_pitch b.

(** Two encoder messages that differ at most in the raw position of the
    left wheel, [encoder1.position]. *)
Definition encoders_msg_eqv (a b : msg.Encoders) : Prop :=
  msg.encoder0 a = msg.encoder0 b /\
  msg.velocity (msg.encoder1 a) = msg.velocity (msg.encoder1 b).

(** Two changed parameters of the same name, with the same value unless
    the name is [vel_lowpass]. *)
Definition parameter_eqv (p q : msg.ParameterValue) : Prop :=
  msg.name p = msg.name q /\
  (msg.name p = "vel_lowpass"%string \/ msg.double_value p = msg.double_value q).

Inductive event_eqv : event -> event -> Prop :=
| eqv_joy : forall m, event_eqv (EvJoy m) (EvJoy m)
| eqv_imu : forall a b,
    orientation_msg_eqv a b ->
    event_eqv (EvOrientationImu a) (EvOrientationImu b)
| eqv_ow : forall a b,
    orientation_msg_eqv a b ->
    event_eqv (EvOrientationOw a) (EvOrientationOw b)
| eqv_encoders : forall a b,
    encoders_msg_eqv a b -> event_eqv (EvEncoders a) (EvEncoders b)
| eqv_parameter : forall a b,
    Forall2 parameter_eqv (msg.changed_parameters a) (msg.changed_parameters b) ->
    event_eqv (EvParameter a) (EvParameter b).

Definition input_eqv (i j : cycle_input) : Prop :=
  now i = now j /\ Forall2 event_eqv (events i) (events j).

(** The sensor variables up to the members that only those inputs reach. *)
Definition orientation_eqv (a b : orientation) : Prop :=
  roll a = roll b /\ pitch a = pitch b /\
  d_roll a = d_roll b /\ d_pitch a = d_pitch b.

Definition encoders_eqv (a b : encoders) : Prop :=
  position_right a = position_right b /\
  velocity_left a = velocity_left b /\
  velocity_right a = velocity_right b.

Definition globals_eqv (g h : globals) : Prop :=
  main_loop g = main_loop h /\
  velocity_cmd g = velocity_cmd h /\
  orientation_eqv (orientation_imu_measurement g) (orientation_imu_measurement h) /\
  orientation_eqv (orientation_ow_measurement g) (orientation_ow_measurement h) /\
  encoders_eqv (encoders_measurement g) (encoders_measurement h) /\
  motor_position g = motor_position h /\
  combined_inner_wheel g = combined_inner_wheel h.

Definition option_rel {A B : Type} (P : A -> B -> Prop)
  (x : option A) (y : option B) : Prop :=
  match x, y with
  | Some a, Some b => P a b
  | None, None => True
  | _, _ => False
  end.

(** Two iterations from related machines: both are undefined, or both
    publish the same and leave related machines. *)
Definition step_eqv (r1 r2 : machine * cycle_output) : Prop :=
  globals_eqv (fst (fst r1)) (fst (fst r2)) /\
  snd (fst r1) = snd (fst r2) /\
  snd r1 = snd r2.

(** ** Reading a parameter event and an event list *)

(** The value carried by the last entry named [n] of a list of changed
    parameters, [d] when no entry has that name. *)
Fixpoint last_value (n : string) (ps : list msg.ParameterValue) (d : R) : R :=
  match ps with
  | [] => d
  | p :: ps =>
      last_value n ps
        (if String.eqb (msg.name p) n then msg.double_value p else d)
  end.

(** Messages whose callback is defined and leaves [main_loop] alone: a Joy
    message with at least two axes, any orientation or encoder message, a
    parameter event without an entry named [main_loop]. *)
Definition keeps_period (e : event) : bool :=
  match e with
  | EvJoy m => (2 <=? List.length (msg.axes m))%nat
  | EvParameter ev =>
      forallb (fun p => negb (String.eqb (msg.name p) "main_loop"))
              (msg.changed_parameters ev)
  | _ => true
  end.

(** ** Lines 188 to 198 in binary32 and binary64

    [float] is IEEE 754 binary32 and [double] binary64, both rounded to
    nearest, ties to even, every operation in the type of its operands
    after the usual promotions.  A value of either type is a
    [spec_float] in the canonical form of its format. *)











(** * Unit conversion *)

Lemma cprToRad_one_turn : cprToRad 8192 = 2 * PI.
Proof. unfold cprToRad; field. Qed.

(** C6: the two conversions are the functions [x * 2 * PI / 8192] and
    [x * 8192 / (2 * PI)], defined for every real, and each is the inverse
    of the other: converting radians to ticks and back gives the value one
    started from, and so does converting ticks to radians and back. *)
Theorem conversions_inverse :
  forall x : R,
    cprToRad x = x * 2 * PI / 8192 /\
    radToCpr x = x * 8192 / (2 * PI) /\
    cprToRad (radToCpr x) = x /\
    radToCpr (cprToRad x) = x.
Proof.
  intro x; unfold cprToRad, radToCpr.
  pose proof PI_neq0 as Hpi.
  repeat split; field; exact Hpi.
Qed.

(** * The sensor state store: encoders *)

(** C4: after an encoder message, the left velocity is the conversion of
    the negated raw velocity of the left wheel ([encoder1]), the right
    velocity the conversion of the raw velocity of the right wheel
    ([encoder0]), the combined position is the position of the right wheel
    and the combined velocity the mean of the two velocities; raw
    velocities of -8192 (left) and 8192 (right) give [2 * PI] for the left,
    the right and the combined velocity. *)
Theorem encoders_update :
  forall (m : msg.Encoders) (g : globals),
    let g' := encoders_topic_callback m g in
    let em := encoders_measurement g' in
    velocity_left em = cprToRad (- msg.velocity (msg.encoder1 m)) /\
    velocity_right em = cprToRad (msg.velocity (msg.encoder0 m)) /\
    position_right em = cprToRad (msg.position (msg.encoder0 m)) /\
    position (combined_inner_wheel g') = position_right em /\
    velocity (combined_inner_wheel g')
      = (velocity_left em + velocity_right em) / 2 /\
    (msg.velocity (msg.encoder1 m) = -8192 ->
     msg.velocity (msg.encoder0 m) = 8192 ->
     velocity_left em = 2 * PI /\
     velocity_right em = 2 * PI /\
     velocity (combined_inner_wheel g') = 2 * PI).
Proof.
  intros m g g' em; subst em g'; cbn [encoders_topic_callback
    encoders_measurement combined_inner_wheel velocity_left velocity_right
    position_right position velocity].
  split; [f_equal; ring|].
  split; [reflexivity|]. split; [reflexivity|]. split; [reflexivity|].
  split; [lra|].
  intros Hleft Hright; rewrite Hleft, Hright.
  replace (-8192 * -1) with 8192 by ring.
  rewrite cprToRad_one_turn.
  repeat split; lra.
Qed.

(** The scenario of C4 at a concrete message: positions 100 and 200 ticks,
    velocities -8192 and 8192 ticks per second. *)
Lemma encoders_update_witness :
  let m := {| msg.encoder0 := {| msg.position := 200; msg.velocity := 8192 |};
              msg.encoder1 := {| msg.position := 100; msg.velocity := -8192 |} |} in
  let g' := encoders_topic_callback m init_globals in
  velocity_left (encoders_measurement g') = 2 * PI /\
  velocity_right (encoders_measurement g') = 2 * PI /\
  velocity (combined_inner_wheel g') = 2 * PI.
Proof.
  intros m g'.
  apply (encoders_update m init_globals); reflexivity.
Defined.

(** * The state-feedback controller *)

Lemma feedback_control_law :
  forall x w k : arr6, feedback x w k = control_law x w k.
Proof.
  intros x w k; unfold feedback, control_law; cbn [seq fold_left sum_upto].
  ring.
Qed.

Lemma sum_upto_zero :
  forall (n : nat) (f : nat -> R),
    (forall i, (i < n)%nat -> f i = 0) -> sum_upto n f = 0.
Proof.
  induction n as [|n IH]; intros f Hf; cbn [sum_upto].
  - reflexivity.
  - rewrite IH by (intros i Hi; apply Hf; lia).
    rewrite Hf by lia. ring.
Qed.

Lemma control_law_zero_gain :
  forall x w k : arr6,
    (forall i, (i < 6)%nat -> k.[i] = 0) -> control_law x w k = 0.
Proof.
  intros x w k Hk; unfold control_law.
  rewrite sum_upto_zero; [ring|].
  intros i Hi; rewrite Hk by exact Hi; ring.
Qed.

Lemma control_law_zero_error :
  forall x w k : arr6,
    (forall i, (i < 6)%nat -> x.[i] - w.[i] = 0) -> control_law x w k = 0.
Proof.
  intros x w k He; unfold control_law.
  rewrite sum_upto_zero; [ring|].
  intros i Hi; rewrite He by exact Hi; ring.
Qed.

(** C1: in every cycle, whatever the sensor variables and the locals hold,
    the control scalar [motor_increment] is minus the sum over the six
    indices of gain times (state - target), taken on the state and target
    of that cycle; the published [pwm_target] is the updated low-pass
    velocity plus the control scalar times [main_loop], the updated
    low-pass velocity being the mean of the old one and [state_x[5]]; and
    the feedback loop gives 0 when the six gains are 0 or the six errors
    are 0. *)
Theorem feedback_law :
  (forall (g : globals) (l : locals),
      let v := control_cycle g l in
      let l' := cv_locals v in
      motor_increment l' = control_law (state_x l') (target_w l') control_k /\
      velocity_lp l' = (velocity_lp l + (state_x l').[5]) / 2 /\
      pwm_target v = velocity_lp l' + motor_increment l' * main_loop g /\
      ((forall i, (i < 6)%nat -> (state_x l').[i] - (target_w l').[i] = 0) ->
       motor_increment l' = 0)) /\
  (forall x w k : arr6,
      feedback x w k = - sum_upto 6 (fun i => k.[i] * (x.[i] - w.[i]))) /\
  (forall x w k : arr6,
      (forall i, (i < 6)%nat -> k.[i] = 0) -> feedback x w k = 0) /\
  (forall x w k : arr6,
      (forall i, (i < 6)%nat -> x.[i] - w.[i] = 0) -> feedback x w k = 0).
Proof.
  split; [|split; [|split]].
  - intros g l v l'; subst l' v; cbn [control_cycle cv_locals motor_increment
      velocity_lp state_x target_w pwm_target].
    split; [apply feedback_control_law|].
    split; [reflexivity|]. split; [reflexivity|].
    intro He; rewrite feedback_control_law.
    apply control_law_zero_error; exact He.
  - intros x w k; apply feedback_control_law.
  - intros x w k Hk; rewrite feedback_control_law.
    apply control_law_zero_gain; exact Hk.
  - intros x w k He; rewrite feedback_control_law.
    apply control_law_zero_error; exact He.
Qed.

(** C1 at concrete vectors: with the gains of the controller and a state
    equal to its target the control scalar is 0, and so it is with gains
    all 0 on the initial state and target. *)
Lemma feedback_law_witness :
  feedback (Arr6 1 2 3 4 5 6) (Arr6 1 2 3 4 5 6) control_k = 0 /\
  feedback (state_x init_locals) (target_w init_locals) (Arr6 0 0 0 0 0 0) = 0.
Proof.
  destruct feedback_law as [_ [_ [Hgain Herr]]].
  split.
  - apply Herr; intros i Hi.
    do 6 (destruct i as [|i]; [cbn; lra|]); lia.
  - apply Hgain; intros i Hi.
    do 6 (destruct i as [|i]; [reflexivity|]); lia.
Defined.

(** * The output shaper *)

(** C5: in every cycle the left target is [pwm_target] minus turn times
    turn gain and the right target is [pwm_target] plus it; the published
    setpoint of motor 1 (left) is the conversion to ticks of the negated
    left target and that of motor 0 (right) the conversion of the right
    target; with no turn both targets equal [pwm_target]; with turn 1,
    turn gain 3 and [pwm_target] 5 they are 2 and 8. *)
Theorem output_shaper :
  forall (g : globals) (l : locals) (t : Time),
    let v := control_cycle g l in
    let c := velocity_cmd g in
    pwm_left v = pwm_target v - turn c * turn_gain c /\
    pwm_right v = pwm_target v + turn c * turn_gain c /\
    msg.motor1_setpoint (motors_msg t v) = radToCpr (- pwm_left v) /\
    msg.motor0_setpoint (motors_msg t v) = radToCpr (pwm_right v) /\
    msg.motor_left (balance_msg t v) = pwm_left v /\
    msg.motor_right (balance_msg t v) = pwm_right v /\
    (turn c = 0 -> pwm_left v = pwm_target v /\ pwm_right v = pwm_target v) /\
    (turn c = 1 -> turn_gain c = 3 -> pwm_target v = 5 ->
     pwm_left v = 2 /\ pwm_right v = 8).
Proof.
  intros g l t v c.
  assert (HL : pwm_left v = pwm_target v - turn c * turn_gain c) by reflexivity.
  assert (HR : pwm_right v = pwm_target v + turn c * turn_gain c) by reflexivity.
  split; [exact HL|]. split; [exact HR|].
  split; [cbn [motors_msg msg.motor1_setpoint]; f_equal; ring|].
  split; [reflexivity|]. split; [reflexivity|]. split; [reflexivity|].
  split.
  - intro Ht; rewrite HL, HR, Ht; split; ring.
  - intros Ht Hg Hp; rewrite HL, HR, Ht, Hg, Hp; split; ring.
Qed.

(** The scenario of C5 in a cycle: no loop period, a wheel velocity of 10
    and a low-pass velocity of 0 give a [pwm_target] of 5; the operator
    turns at 1 with the default turn gain 3. *)
Lemma output_shaper_witness :
  let g := {| main_loop := 0;
              velocity_cmd := Vel_cmd 0 1 0.05 3;
              orientation_imu_measurement := Orientation 0 0 0 0.2 0 0 0;
              orientation_ow_measurement := Orientation 0 0 0 0.2 0 0 0;
              encoders_measurement := Encoders 0 0 10 10;
              vel_lowpass := 20;
              motor_position := Wheel_position 0 0;
              combined_inner_wheel := Inner_wheel 0 10 |} in
  let v := control_cycle g init_locals in
  pwm_target v = 5 /\ pwm_left v = 2 /\ pwm_right v = 8.
Proof.
  intros g v.
  assert (Hp : pwm_target v = 5).
  { subst v g; cbn [control_cycle pwm_target main_loop velocity_lp init_locals
      read_state combined_inner_wheel velocity get set e5].
    rewrite Rmult_0_r; lra. }
  split; [exact Hp|].
  destruct (output_shaper g init_locals 0%Z) as (_ & _ & _ & _ & _ & _ & _ & H).
  apply H; [reflexivity|reflexivity|exact Hp].
Defined.

(** * The reference trajectory manager *)

Lemma get_set_same :
  forall (a : arr6) (i : nat) (v : R), (i < 6)%nat -> a.[i <- v].[i] = v.
Proof.
  intros a i v Hi.
  do 6 (destruct i as [|i]; [reflexivity|]); lia.
Qed.

Lemma get_set_other :
  forall (a : arr6) (i j : nat) (v : R), i <> j -> a.[i <- v].[j] = a.[j].
Proof.
  intros a i j v Hij.
  do 6 (destruct i as [|i];
        [do 6 (destruct j as [|j]; [reflexivity || contradiction|]);
         reflexivity|]).
  reflexivity.
Qed.

(** Over exact arithmetic the clamp leaves the position target in the
    window; what the [float] target holds is [limit_delta_f32]. *)
Lemma limit_delta_bounds :
  forall x w : arr6,
    x.[4] - 2 * PI <= (limit_delta x w).[4] <= x.[4] + 2 * PI.
Proof.
  intros x w; unfold limit_delta.
  pose proof PI_RGT_0 as Hpi.
  destruct (Rgt_dec w.[4] (x.[4] + PI * 2)) as [Hhi|Hhi].
  - rewrite (get_set_same w 4) by lia.
    destruct (Rlt_dec (x.[4] + PI * 2) (x.[4] - PI * 2)) as [Hlo|Hlo].
    + lra.
    + rewrite (get_set_same w 4) by lia. lra.
  - destruct (Rlt_dec w.[4] (x.[4] - PI * 2)) as [Hlo|Hlo].
    + rewrite (get_set_same w 4) by lia. lra.
    + lra.
Qed.

Lemma limit_delta_inside :
  forall x w : arr6,
    x.[4] - 2 * PI <= w.[4] <= x.[4] + 2 * PI -> limit_delta x w = w.
Proof.
  intros x w Hin; unfold limit_delta.
  destruct (Rgt_dec w.[4] (x.[4] + PI * 2)) as [Hhi|Hhi]; [lra|].
  destruct (Rlt_dec w.[4] (x.[4] - PI * 2)) as [Hlo|Hlo]; [lra|].
  reflexivity.
Qed.

Lemma limit_delta_other :
  forall (x w : arr6) (i : nat), i <> 4%nat -> (limit_delta x w).[i] = w.[i].
Proof.
  intros x w i Hi; unfold limit_delta.
  destruct (Rgt_dec w.[4] (x.[4] + PI * 2)) as [Hhi|Hhi];
    destruct (Rlt_dec _ _) as [Hlo|Hlo];
    rewrite ?get_set_other by congruence; reflexivity.
Qed.




(** C3: the reference update adds forward times forward gain to the
    position target and stores forward times forward gain in the velocity
    target, then clamps; the target of every cycle is the clamp of that;
    from rest (wheel position 0, position target 0) with forward 1 and
    forward gain 0.05, one cycle raises the position target by 0.05 and
    makes the velocity target 0.05. *)
Theorem reference_update :
  (forall (c : vel_cmd) (w : arr6),
      (integrate_command c w).[4] = w.[4] + forward c * forward_gain c /\
      (integrate_command c w).[5] = forward c * forward_gain c) /\
  (forall (g : globals) (l : locals),
      let l' := cv_locals (control_cycle g l) in
      target_w l'
        = limit_delta (state_x l') (integrate_command (velocity_cmd g) (target_w l)) /\
      (target_w l').[5] = forward (velocity_cmd g) * forward_gain (velocity_cmd g)) /\
  (forall (g : globals) (l : locals),
      position (combined_inner_wheel g) = 0 ->
      (target_w l).[4] = 0 ->
      forward (velocity_cmd g) = 1 ->
      forward_gain (velocity_cmd g) = 0.05 ->
      let l' := cv_locals (control_cycle g l) in
      (target_w l').[4] = (target_w l).[4] + 0.05 /\
      (target_w l').[4] = 0.05 /\
      (target_w l').[5] = 0.05).
Proof.
  assert (Hint : forall (c : vel_cmd) (w : arr6),
             (integrate_command c w).[4] = w.[4] + forward c * forward_gain c /\
             (integrate_command c w).[5] = forward c * forward_gain c).
  { intros c w; unfold integrate_command.
    rewrite get_set_other, !get_set_same by lia. split; reflexivity. }
  split; [exact Hint|]. split.
  - intros g l l'; subst l'; cbn [control_cycle cv_locals state_x target_w].
    split; [reflexivity|].
    unfold update_target; rewrite limit_delta_other by lia. apply Hint.
  - intros g l Hpos Hw Hf Hg l'; subst l'.
    cbn [control_cycle cv_locals state_x target_w]; unfold update_target.
    destruct (Hint (velocity_cmd g) (target_w l)) as [H4 H5].
    rewrite Hf, Hg, Hw in H4. rewrite Hf, Hg in H5.
    assert (Hx : (read_state g (state_x l)).[4] = 0).
    { unfold read_state; rewrite get_set_other, get_set_same by lia.
      exact Hpos. }
    rewrite limit_delta_inside.
    + rewrite H4, H5, Hw; repeat split; lra.
    + rewrite H4, Hx. pose proof PI2_1. lra.
Qed.

(** The scenario of C3 from the initial state of the process, once the
    operator pushes the stick forward to 1. *)
Lemma reference_update_witness :
  let g := {| main_loop := 0.08;
              velocity_cmd := Vel_cmd 1 0 0.05 3;
              orientation_imu_measurement := Orientation 0 0 0 0.2 0 0 0;
              orientation_ow_measurement := Orientation 0 0 0 0.2 0 0 0;
              encoders_measurement := Encoders 0 0 0 0;
              vel_lowpass := 20;
              motor_position := Wheel_position 0 0;
              combined_inner_wheel := Inner_wheel 0 0 |} in
  let l' := cv_locals (control_cycle g init_locals) in
  (target_w l').[4] = (target_w init_locals).[4] + 0.05 /\
  (target_w l').[4] = 0.05 /\
  (target_w l').[5] = 0.05.
Proof.
  intros g.
  destruct reference_update as (_ & _ & H).
  apply (H g init_locals); reflexivity.
Defined.

(** * The loop driver: [sleep] *)

Lemma truncate_nonneg :
  forall (x : R) (z : Z), IZR z <= x < IZR z + 1 -> 0 <= x -> truncate x = z.
Proof.
  intros x z Hz Hx; unfold truncate.
  destruct (Rle_dec 0 x) as [_|Hn]; [|contradiction].
  symmetry; apply Int_part_spec; lra.
Qed.

Lemma float_to_unsigned_nonneg :
  forall (x : R) (z : Z),
    (0 <= z <= UINT_MAX)%Z -> IZR z <= x < IZR z + 1 ->
    float_to_unsigned x = Some z.
Proof.
  intros x z Hr Hz; unfold float_to_unsigned.
  rewrite (truncate_nonneg x z Hz).
  - destruct (Z.leb_spec 0 z); [|lia].
    destruct (Z.leb_spec z UINT_MAX); [|lia].
    reflexivity.
  - apply Rle_trans with (IZR z); [apply IZR_le; lia|lra].
Qed.

Lemma sleep_request_init : sleep_request init_globals = Some 0%Z.
Proof.
  apply float_to_unsigned_nonneg; [unfold UINT_MAX; lia|].
  cbn [main_loop init_globals]; lra.
Qed.

Lemma sleep_request_sub_second :
  forall g : globals, 0 <= main_loop g < 1 -> sleep_request g = Some 0%Z.
Proof.
  intros g Hg; apply float_to_unsigned_nonneg; [unfold UINT_MAX; lia|].
  lra.
Qed.

(** C8, as the code has it: with the default period of 0.08 seconds the
    argument that [sleep] receives is 0 seconds, not the period, in the
    first iteration of every run whose first [spin_some] leaves the period
    alone; the call asks for the period truncated to whole seconds. *)
Theorem sleep_truncates_period :
  main_loop init_globals = 0.08 /\
  sleep_request init_globals = Some 0%Z /\
  IZR 0 <> main_loop init_globals /\
  (forall t : Time,
      exists s' o,
        loop_body {| now := t; events := [] |} init_machine = Some (s', o) /\
        slept o = 0%Z).
Proof.
  split; [reflexivity|]. split; [exact sleep_request_init|].
  split; [cbn [main_loop init_globals]; lra|].
  intro t; unfold loop_body.
  cbn [events spin_some bind fst init_machine].
  rewrite sleep_request_init; cbn [bind].
  eexists; eexists; split; reflexivity.
Qed.

(** * The reference vector: what a cycle leaves alone *)

Lemma integrate_command_other :
  forall (c : vel_cmd) (w : arr6) (i : nat),
    i <> 4%nat -> i <> 5%nat -> (integrate_command c w).[i] = w.[i].
Proof.
  intros c w i H4 H5; unfold integrate_command.
  rewrite !get_set_other by congruence. reflexivity.
Qed.

Lemma control_cycle_target_frame :
  forall (g : globals) (l : locals) (i : nat),
    i <> 4%nat -> i <> 5%nat ->
    (target_w (cv_locals (control_cycle g l))).[i] = (target_w l).[i].
Proof.
  intros g l i H4 H5; cbn [control_cycle cv_locals target_w].
  unfold update_target.
  rewrite limit_delta_other by exact H4.
  apply integrate_command_other; assumption.
Qed.

Lemma loop_body_locals :
  forall (i : cycle_input) (s s' : machine) (o : cycle_output),
    loop_body i s = Some (s', o) ->
    snd s' = cv_locals (control_cycle (fst s) (snd s)).
Proof.
  intros i s s' o H; unfold loop_body in H.
  destruct (spin_some (events i) (fst s)) as [g'|]; [|discriminate].
  cbn [bind] in H.
  destruct (sleep_request g') as [z|]; [|discriminate].
  cbn [bind] in H. injection H as <- _. reflexivity.
Qed.

Lemma run_cons :
  forall (i : cycle_input) (inps : list cycle_input) (s s' : machine)
         (outs : list cycle_output),
    run (i :: inps) s = Some (s', outs) ->
    exists s1 o outs',
      loop_body i s = Some (s1, o) /\
      run inps s1 = Some (s', outs') /\
      outs = o :: outs'.
Proof.
  intros i inps s s' outs H; cbn [run] in H.
  destruct (loop_body i s) as [[s1 o]|]; [|discriminate].
  cbn [bind fst snd] in H.
  destruct (run inps s1) as [[s2 outs']|] eqn:Hr; [|discriminate].
  cbn [bind fst snd] in H. injection H as Hs Ho.
  exists s1, o, outs'. subst s' outs. repeat split. exact Hr.
Qed.

Lemma run_target_frame :
  forall (inps : list cycle_input) (s s' : machine) (outs : list cycle_output),
    run inps s = Some (s', outs) ->
    forall i : nat, i <> 4%nat -> i <> 5%nat ->
      (target_w (snd s')).[i] = (target_w (snd s)).[i].
Proof.
  induction inps as [|inp inps IH]; intros s s' outs H i H4 H5.
  - cbn [run] in H. injection H as <- _. reflexivity.
  - apply run_cons in H as (s1 & o & outs' & Hb & Hr & _).
    rewrite (IH _ _ _ Hr i H4 H5).
    rewrite (loop_body_locals _ _ _ _ Hb).
    apply control_cycle_target_frame; assumption.
Qed.

(** C9: the target vector starts as [0.1415, 0, 0, 0, 0, 0]; a cycle
    leaves every index other than 4 and 5 as it found it; and after any
    number of iterations from the start of the process, whatever messages
    arrive, indices 0 to 3 still hold 0.1415, 0, 0 and 0. *)
Theorem reference_frame :
  target_w init_locals = Arr6 0.1415 0 0 0 0 0 /\
  (forall (g : globals) (l : locals) (i : nat),
      i <> 4%nat -> i <> 5%nat ->
      (target_w (cv_locals (control_cycle g l))).[i] = (target_w l).[i]) /\
  (forall (inps : list cycle_input) (s' : machine) (outs : list cycle_output),
      run inps init_machine = Some (s', outs) ->
      (target_w (snd s')).[0] = 0.1415 /\
      (target_w (snd s')).[1] = 0 /\
      (target_w (snd s')).[2] = 0 /\
      (target_w (snd s')).[3] = 0).
Proof.
  split; [reflexivity|]. split; [exact control_cycle_target_frame|].
  intros inps s' outs H.
  repeat split;
    rewrite (run_target_frame _ _ _ _ H) by congruence; reflexivity.
Qed.

Lemma loop_body_sub_second :
  forall (i : cycle_input) (s : machine) (g' : globals),
    spin_some (events i) (fst s) = Some g' ->
    0 <= main_loop g' < 1 ->
    loop_body i s
    = Some ((g', cv_locals (control_cycle (fst s) (snd s))),
            {| balance := balance_msg (now i) (control_cycle (fst s) (snd s));
               motors := motors_msg (now i) (control_cycle (fst s) (snd s));
               slept := 0 |}).
Proof.
  intros i s g' Hspin Hg; unfold loop_body.
  rewrite Hspin; cbn [bind].
  rewrite (sleep_request_sub_second g' Hg); reflexivity.
Qed.

(** C9 on a run of two iterations: the operator pushes the stick forward
    during the first one, so that the second one moves the targets at
    indices 4 and 5. *)
Lemma reference_frame_witness :
  let inps := [ {| now := 0%Z; events := [EvJoy {| msg.axes := [0; 1] |}] |};
                {| now := 1%Z; events := [] |} ] in
  exists s' outs,
    run inps init_machine = Some (s', outs) /\
    (target_w (snd s')).[0] = 0.1415 /\
    (target_w (snd s')).[1] = 0 /\
    (target_w (snd s')).[2] = 0 /\
    (target_w (snd s')).[3] = 0.
Proof.
  intro inps.
  assert (Hrun : exists s' outs, run inps init_machine = Some (s', outs)).
  { subst inps; cbn [run].
    erewrite loop_body_sub_second;
      [|reflexivity|cbn; lra].
    cbn [bind fst snd].
    erewrite loop_body_sub_second;
      [|reflexivity|cbn; lra].
    cbn [bind fst snd]. eexists; eexists; reflexivity. }
  destruct Hrun as (s' & outs & H).
  exists s', outs; split; [exact H|].
  destruct reference_frame as (_ & _ & HF).
  exact (HF _ _ _ H).
Defined.

(** * The velocity low-pass *)

Lemma control_cycle_state5 :
  forall (g : globals) (l : locals),
    (state_x (cv_locals (control_cycle g l))).[5]
    = velocity (combined_inner_wheel g).
Proof. reflexivity. Qed.

Lemma lowpass_step :
  forall (g : globals) (l : locals),
    let l' := cv_locals (control_cycle g l) in
    velocity_lp l' = (velocity_lp l + (state_x l').[5]) / 2.
Proof. reflexivity. Qed.

Lemma lowpass_error_halves :
  forall (g : globals) (l : locals) (v : R),
    let l' := cv_locals (control_cycle g l) in
    (state_x l').[5] = v ->
    velocity_lp l' - v = (velocity_lp l - v) / 2.
Proof.
  intros g l v l' Hv. subst l'. rewrite lowpass_step, Hv. field.
Qed.

Lemma trace_lowpass_error :
  forall (s : nat -> machine) (inp : nat -> cycle_input)
         (out : nat -> cycle_output) (v : R),
    (forall n, loop_body (inp n) (s n) = Some (s (S n), out n)) ->
    (forall n, (state_x (snd (s (S n)))).[5] = v) ->
    forall n,
      velocity_lp (snd (s n)) - v = (velocity_lp (snd (s O)) - v) / 2 ^ n.
Proof.
  intros s inp out v Hstep Hv n.
  induction n as [|n IH].
  - cbn [pow]; field.
  - pose proof (loop_body_locals _ _ _ _ (Hstep n)) as Hl.
    pose proof (Hv n) as Hv'. rewrite Hl in Hv'.
    rewrite Hl, (lowpass_error_halves _ _ v Hv'), IH.
    cbn [pow]. field. apply pow_nonzero; lra.
Qed.

(** C7: every cycle replaces the low-pass velocity by the mean of itself
    and [state_x[5]]; if both equal [v] it stays [v]; if [state_x[5]] is
    [v] the distance of the low-pass velocity to [v] is halved; and along
    any unending sequence of iterations in which [state_x[5]] is [v] every
    time, the distance after [n] iterations is the initial one divided by
    [2 ^ n] and the low-pass velocity converges to [v]. *)
Theorem lowpass_converges :
  (forall (g : globals) (l : locals),
      let l' := cv_locals (control_cycle g l) in
      velocity_lp l' = (velocity_lp l + (state_x l').[5]) / 2) /\
  (forall (g : globals) (l : locals) (v : R),
      let l' := cv_locals (control_cycle g l) in
      (state_x l').[5] = v -> velocity_lp l = v -> velocity_lp l' = v) /\
  (forall (g : globals) (l : locals) (v : R),
      let l' := cv_locals (control_cycle g l) in
      (state_x l').[5] = v ->
      Rabs (velocity_lp l' - v) = Rabs (velocity_lp l - v) / 2) /\
  (forall (s : nat -> machine) (inp : nat -> cycle_input)
          (out : nat -> cycle_output) (v : R),
      (forall n, loop_body (inp n) (s n) = Some (s (S n), out n)) ->
      (forall n, (state_x (snd (s (S n)))).[5] = v) ->
      (forall n, Rabs (velocity_lp (snd (s n)) - v)
                 = Rabs (velocity_lp (snd (s O)) - v) / 2 ^ n) /\
      Un_cv (fun n => velocity_lp (snd (s n))) v).
Proof.
  split; [exact lowpass_step|]. split; [|split].
  - intros g l v l' Hv Hl.
    pose proof (lowpass_error_halves g l v Hv) as H.
    fold l' in H. rewrite Hl in H. lra.
  - intros g l v l' Hv.
    pose proof (lowpass_error_halves g l v Hv) as H.
    fold l' in H. rewrite H.
    unfold Rdiv; rewrite Rabs_mult, (Rabs_pos_eq (/ 2)) by lra. reflexivity.
  - intros s inp out v Hstep Hv.
    pose proof (trace_lowpass_error s inp out v Hstep Hv) as Herr.
    assert (Hpow : forall n, 0 < / 2 ^ n).
    { intro n; apply Rinv_0_lt_compat, pow_lt; lra. }
    split.
    + intro n; rewrite Herr.
      unfold Rdiv; rewrite Rabs_mult, (Rabs_pos_eq (/ 2 ^ n)).
      * reflexivity.
      * left; apply Hpow.
    + intros eps Heps.
      destruct (cv_pow_half (velocity_lp (snd (s O)) - v) eps Heps) as [N HN].
      exists N; intros n Hn. specialize (HN n Hn).
      unfold R_dist in *. rewrite Herr.
      rewrite Rminus_0_r in HN. exact HN.
Qed.

Lemma idle_trace_fst :
  forall (s : machine) (n : nat), fst (idle_trace s n) = fst s.
Proof.
  intros s n; induction n as [|n IH]; [reflexivity|].
  unfold idle_trace in *; cbn [Nat.iter fst]. exact IH.
Qed.

Lemma idle_trace_step :
  forall (s : machine) (n : nat),
    0 <= main_loop (fst s) < 1 ->
    loop_body {| now := Z.of_nat n; events := [] |} (idle_trace s n)
    = Some (idle_trace s (S n),
            {| balance := balance_msg (Z.of_nat n)
                 (control_cycle (fst (idle_trace s n)) (snd (idle_trace s n)));
               motors := motors_msg (Z.of_nat n)
                 (control_cycle (fst (idle_trace s n)) (snd (idle_trace s n)));
               slept := 0 |}).
Proof.
  intros s n Hs.
  rewrite (loop_body_sub_second _ _ (fst (idle_trace s n))).
  - reflexivity.
  - reflexivity.
  - rewrite idle_trace_fst; exact Hs.
Qed.

(** C7 on the run that starts with wheels turning at 1 rad/s, a low-pass
    velocity of 0 and no message ever arriving. *)
Lemma lowpass_converges_witness :
  let g := {| main_loop := 0.08;
              velocity_cmd := Vel_cmd 0 0 0.05 3;
              orientation_imu_measurement := Orientation 0 0 0 0.2 0 0 0;
              orientation_ow_measurement := Orientation 0 0 0 0.2 0 0 0;
              encoders_measurement := Encoders 0 0 1 1;
              vel_lowpass := 20;
              motor_position := Wheel_position 0 0;
              combined_inner_wheel := Inner_wheel 0 1 |} in
  let s := idle_trace (g, init_locals) in
  (forall n, Rabs (velocity_lp (snd (s n)) - 1)
             = Rabs (velocity_lp (snd (s O)) - 1) / 2 ^ n) /\
  Un_cv (fun n => velocity_lp (snd (s n))) 1.
Proof.
  intros g s.
  destruct lowpass_converges as (_ & _ & _ & H).
  apply (H s (fun n => {| now := Z.of_nat n; events := [] |})
           (fun n =>
              {| balance := balance_msg (Z.of_nat n)
                   (control_cycle (fst (s n)) (snd (s n)));
                 motors := motors_msg (Z.of_nat n)
                   (control_cycle (fst (s n)) (snd (s n)));
                 slept := 0 |})).
  - intro n; apply idle_trace_step; cbn; lra.
  - intro n; subst s.
    change (idle_trace (g, init_locals) (S n))
      with (fst (idle_trace (g, init_locals) n),
            cv_locals (control_cycle (fst (idle_trace (g, init_locals) n))
                                     (snd (idle_trace (g, init_locals) n)))).
    cbn [snd]. rewrite control_cycle_state5, idle_trace_fst. reflexivity.
Defined.

(** * Inputs that the loop never reads *)

Lemma control_cycle_eqv :
  forall (g h : globals) (l : locals),
    globals_eqv g h -> control_cycle g l = control_cycle h l.
Proof.
  intros g h l (Hm & Hc & (Hr & _ & Hdr & _) & (_ & Hp & _ & Hdp) & _ & _ & Hw).
  unfold control_cycle, read_state.
  rewrite Hm, Hc, Hr, Hdr, Hp, Hdp, Hw. reflexivity.
Qed.

Lemma setters_eqv :
  forall (g h : globals) (v : R),
    globals_eqv g h ->
    globals_eqv (set_forward_gain v g) (set_forward_gain v h) /\
    globals_eqv (set_turn_gain v g) (set_turn_gain v h) /\
    globals_eqv (set_main_loop v g) (set_main_loop v h).
Proof.
  intros g h v (Hm & Hc & Hi & Ho & He & Hp & Hw).
  unfold globals_eqv, set_forward_gain, set_turn_gain, set_main_loop;
    cbn [main_loop velocity_cmd orientation_imu_measurement
         orientation_ow_measurement encoders_measurement motor_position
         combined_inner_wheel].
  rewrite Hc. repeat split; try assumption; try apply Hi; try apply Ho;
    try apply He.
Qed.

Lemma apply_parameter_eqv :
  forall (g h : globals) (p q : msg.ParameterValue),
    parameter_eqv p q -> globals_eqv g h ->
    globals_eqv (apply_parameter g p) (apply_parameter h q).
Proof.
  intros g h p q [Hn Hv] Hgh; unfold apply_parameter.
  rewrite <- Hn.
  destruct Hv as [Hlow|Hv].
  - rewrite Hlow; cbn. exact Hgh.
  - rewrite <- Hv.
    destruct (String.eqb (msg.name p) "vel_cmd.forward_gain").
    + pose proof (setters_eqv g h (msg.double_value p) Hgh) as (H1 & _ & _).
      destruct (String.eqb (msg.name p) "vel_cmd.turn_gain").
      * pose proof (setters_eqv _ _ (msg.double_value p) H1) as (_ & H2 & _).
        destruct (String.eqb (msg.name p) "main_loop"); [|exact H2].
        apply setters_eqv; exact H2.
      * destruct (String.eqb (msg.name p) "main_loop"); [|exact H1].
        apply setters_eqv; exact H1.
    + destruct (String.eqb (msg.name p) "vel_cmd.turn_gain").
      * pose proof (setters_eqv _ _ (msg.double_value p) Hgh) as (_ & H2 & _).
        destruct (String.eqb (msg.name p) "main_loop"); [|exact H2].
        apply setters_eqv; exact H2.
      * destruct (String.eqb (msg.name p) "main_loop"); [|exact Hgh].
        apply setters_eqv; exact Hgh.
Qed.

Lemma param_change_callback_eqv :
  forall (ps qs : list msg.ParameterValue),
    Forall2 parameter_eqv ps qs ->
    forall g h : globals,
      globals_eqv g h ->
      globals_eqv (fold_left apply_parameter ps g) (fold_left apply_parameter qs h).
Proof.
  induction 1 as [|p q ps qs Hpq _ IH]; intros g h Hgh; cbn [fold_left].
  - exact Hgh.
  - apply IH, apply_parameter_eqv; assumption.
Qed.

Lemma dispatch_eqv :
  forall (e1 e2 : event) (g h : globals),
    event_eqv e1 e2 -> globals_eqv g h ->
    option_rel globals_eqv (dispatch e1 g) (dispatch e2 h).
Proof.
  intros e1 e2 g h He (Hm & Hc & Hi & Ho & Hen & Hp & Hw).
  destruct He as [m|a b Hab|a b Hab|a b [H0 H1]|a b Hab]; cbn [dispatch].
  - unfold joy_topic_callback.
    destruct (nth_error (msg.axes m) 1) as [a1|]; cbn [bind option_rel];
      [|exact I].
    destruct (nth_error (msg.axes m) 0) as [a0|]; cbn [bind option_rel];
      [|exact I].
    unfold globals_eqv; cbn [main_loop velocity_cmd orientation_imu_measurement
      orientation_ow_measurement encoders_measurement motor_position
      combined_inner_wheel].
    rewrite Hc. repeat split; try assumption; try apply Hi; try apply Ho;
      try apply Hen.
  - unfold option_rel, globals_eqv, orientation_imu_topic_callback,
      orientation_of_msg, orientation_eqv;
      cbn [main_loop velocity_cmd orientation_imu_measurement
           orientation_ow_measurement encoders_measurement motor_position
           combined_inner_wheel roll pitch d_roll d_pitch].
    destruct Hab as (? & ? & ? & ?).
    repeat split; try assumption; try apply Ho; try apply Hen.
  - unfold option_rel, globals_eqv, orientation_ow_topic_callback,
      orientation_of_msg, orientation_eqv;
      cbn [main_loop velocity_cmd orientation_imu_measurement
           orientation_ow_measurement encoders_measurement motor_position
           combined_inner_wheel roll pitch d_roll d_pitch].
    destruct Hab as (? & ? & ? & ?).
    repeat split; try assumption; try apply Hi; try apply Hen.
  - unfold option_rel, globals_eqv, encoders_topic_callback, encoders_eqv;
      cbn [main_loop velocity_cmd orientation_imu_measurement
           orientation_ow_measurement encoders_measurement motor_position
           combined_inner_wheel position_right velocity_left velocity_right].
    rewrite H0, H1.
    repeat split; try assumption; try apply Hi; try apply Ho.
  - cbn [option_rel]; unfold param_change_callback.
    apply param_change_callback_eqv; [exact Hab|].
    repeat split; try assumption; try apply Hi; try apply Ho; try apply Hen.
Qed.

Lemma spin_some_eqv :
  forall es1 es2 : list event,
    Forall2 event_eqv es1 es2 ->
    forall g h : globals,
      globals_eqv g h ->
      option_rel globals_eqv (spin_some es1 g) (spin_some es2 h).
Proof.
  induction 1 as [|e1 e2 es1 es2 He _ IH]; intros g h Hgh; cbn [spin_some].
  - exact Hgh.
  - pose proof (dispatch_eqv e1 e2 g h He Hgh) as Hd.
    destruct (dispatch e1 g) as [g'|], (dispatch e2 h) as [h'|];
      cbn [option_rel bind] in *; try contradiction; [|exact I].
    apply IH; exact Hd.
Qed.

Lemma loop_body_eqv :
  forall (i j : cycle_input) (g h : globals) (l : locals),
    input_eqv i j -> globals_eqv g h ->
    option_rel step_eqv (loop_body i (g, l)) (loop_body j (h, l)).
Proof.
  intros i j g h l [Hnow Hev] Hgh; unfold loop_body; cbn [fst snd].
  rewrite (control_cycle_eqv g h l Hgh), Hnow.
  pose proof (spin_some_eqv _ _ Hev g h Hgh) as Hs.
  destruct (spin_some (events i) g) as [g'|], (spin_some (events j) h) as [h'|];
    cbn [option_rel bind] in *; try contradiction; [|exact I].
  unfold sleep_request.
  destruct Hs as (Hm & Hrest). rewrite Hm.
  destruct (float_to_unsigned (main_loop h')) as [z|]; cbn [bind option_rel];
    [|exact I].
  unfold step_eqv; cbn [fst snd].
  split; [split; assumption|]. split; reflexivity.
Qed.

Lemma run_eqv :
  forall inps1 inps2 : list cycle_input,
    Forall2 input_eqv inps1 inps2 ->
    forall (g h : globals) (l : locals),
      globals_eqv g h ->
      option_map snd (run inps1 (g, l)) = option_map snd (run inps2 (h, l)) /\
      published inps1 (g, l) = published inps2 (h, l).
Proof.
  induction 1 as [|i j inps1 inps2 Hij _ IH]; intros g h l Hgh.
  - split; reflexivity.
  - cbn [run published fst snd].
    pose proof (loop_body_eqv i j g h l Hij Hgh) as Hb.
    rewrite (control_cycle_eqv g h l Hgh).
    destruct Hij as [Hnow _]; rewrite Hnow.
    destruct (loop_body i (g, l)) as [[[g1 l1] o1]|],
             (loop_body j (h, l)) as [[[h1 l2] o2]|];
      cbn [option_rel bind fst snd] in *; try contradiction;
      [|split; reflexivity].
    destruct Hb as (Hg1 & Hl & Ho); cbn [fst snd] in *. subst l2 o2.
    destruct (IH g1 h1 l1 Hg1) as [Hrun Hpub].
    rewrite Hpub. split; [|reflexivity].
    destruct (run inps1 (g1, l1)) as [[s1 outs1]|],
             (run inps2 (h1, l1)) as [[s2 outs2]|];
      cbn [option_map bind fst snd] in *; try discriminate;
      [|reflexivity].
    injection Hrun as ->. reflexivity.
Qed.

Lemma run_published :
  forall (inps : list cycle_input) (s s' : machine) (outs : list cycle_output),
    run inps s = Some (s', outs) ->
    published inps s = map (fun o => (balance o, motors o)) outs.
Proof.
  induction inps as [|i inps IH]; intros s s' outs H.
  - cbn [run] in H. injection H as _ <-. reflexivity.
  - apply run_cons in H as (s1 & o & outs' & Hb & Hr & ->).
    cbn [published map]. rewrite Hb; cbn [fst].
    rewrite (IH _ _ _ Hr). f_equal.
    unfold loop_body in Hb.
    destruct (spin_some (events i) (fst s)) as [g'|]; [|discriminate].
    cbn [bind] in Hb.
    destruct (sleep_request g') as [z|]; [|discriminate].
    cbn [bind] in Hb. injection Hb as _ <-. reflexivity.
Qed.

(** C10: two runs from the same locals whose sensor variables agree up to
    [vel_lowpass], the left wheel position and the [yaw], [d_yaw] and [dt]
    of the two orientations, and whose inputs agree up to the value of a
    changed [vel_lowpass] parameter, the raw position of the left encoder
    and the [yaw], [d_yaw] and [dt] of the orientation messages, publish
    the same Balance and Motors messages in every iteration, are defined
    or undefined together, and ask [sleep] for the same durations. *)
Theorem unused_inputs_noninterference :
  forall (inps1 inps2 : list cycle_input) (g h : globals) (l : locals),
    Forall2 input_eqv inps1 inps2 ->
    globals_eqv g h ->
    published inps1 (g, l) = published inps2 (h, l) /\
    option_map snd (run inps1 (g, l)) = option_map snd (run inps2 (h, l)).
Proof.
  intros inps1 inps2 g h l Hin Hgh.
  destruct (run_eqv inps1 inps2 Hin g h l Hgh) as [Hrun Hpub].
  split; assumption.
Qed.

(** C10 on two runs of two iterations: they differ in the initial
    [vel_lowpass], in the value of a changed [vel_lowpass] parameter, in
    the raw position of the left encoder and in the [yaw], [d_yaw] and
    [dt] of the orientation messages. *)
Lemma unused_inputs_noninterference_witness :
  let h := {| main_loop := 0.08;
              velocity_cmd := Vel_cmd 0 0 0.05 3;
              orientation_imu_measurement := Orientation 0 0 0 0.2 0 0 0;
              orientation_ow_measurement := Orientation 0 0 0 0.2 0 0 0;
              encoders_measurement := Encoders 0 0 0 0;
              vel_lowpass := 7;
              motor_position := Wheel_position 0 0;
              combined_inner_wheel := Inner_wheel 0 0 |} in
  let evs (y p lp : R) :=
    [ EvOrientationImu
        {| msg.roll := 0.1; msg.pitch := 0; msg.yaw := y;
           msg.d_roll := 0.3; msg.d_pitch := 0; msg.d_yaw := y;
           msg.dt := y |};
      EvOrientationOw
        {| msg.roll := 0; msg.pitch := 0.2; msg.yaw := y;
           msg.d_roll := 0; msg.d_pitch := 0.4; msg.d_yaw := y;
           msg.dt := y |};
      EvEncoders
        {| msg.encoder0 := {| msg.position := 40; msg.velocity := 8 |};
           msg.encoder1 := {| msg.position := p; msg.velocity := -8 |} |};
      EvParameter
        {| msg.changed_parameters :=
             [ {| msg.name := "vel_lowpass"; msg.double_value := lp |};
               {| msg.name := "vel_cmd.turn_gain"; msg.double_value := 2 |} ] |};
      EvJoy {| msg.axes := [1; 1] |} ] in
  let inps (y p lp : R) :=
    [ {| now := 0%Z; events := evs y p lp |};
      {| now := 1%Z; events := [] |} ] in
  published (inps 1 2 3) (init_globals, init_locals)
  = published (inps 4 5 6) (h, init_locals).
Proof.
  intros h evs inps.
  apply unused_inputs_noninterference.
  - subst inps evs. constructor; [|constructor; [|constructor]].
    + split; [reflexivity|]. cbn [events].
      constructor; [apply eqv_imu; repeat split|].
      constructor; [apply eqv_ow; repeat split|].
      constructor; [apply eqv_encoders; split; reflexivity|].
      constructor; [apply eqv_parameter; cbn [msg.changed_parameters]|].
      * constructor; [split; [reflexivity|left; reflexivity]|].
        constructor; [split; [reflexivity|right; reflexivity]|].
        constructor.
      * constructor; [apply eqv_joy|constructor].
    + split; [reflexivity|constructor].
  - unfold globals_eqv, orientation_eqv, encoders_eqv; cbn. tauto.
Defined.

(** * Further properties of the callbacks *)

(** X1: the Joy callback is undefined exactly when the message has fewer
    than two axes; otherwise it stores [axes[1]] as the forward command
    and [axes[0]] as the turn command and leaves the two gains and every
    other variable as they were. *)
Theorem joy_callback_defined :
  forall (m : msg.Joy) (g : globals),
    (joy_topic_callback m g = None <-> (List.length (msg.axes m) < 2)%nat) /\
    (forall (a0 a1 : R) (rest : list R),
        msg.axes m = a0 :: a1 :: rest ->
        joy_topic_callback m g
        = Some (Globals (main_loop g)
                  (Vel_cmd a1 a0 (forward_gain (velocity_cmd g))
                           (turn_gain (velocity_cmd g)))
                  (orientation_imu_measurement g)
                  (orientation_ow_measurement g)
                  (encoders_measurement g) (vel_lowpass g)
                  (motor_position g) (combined_inner_wheel g))).
Proof.
  intros m g; unfold joy_topic_callback; split.
  - destruct (msg.axes m) as [|a0 [|a1 rest]]; cbn [nth_error bind List.length].
    + split; [intros _; lia|reflexivity].
    + split; [intros _; lia|reflexivity].
    + split; [discriminate|intro H; lia].
  - intros a0 a1 rest ->; reflexivity.
Qed.

(** X1 on a message with three axes. *)
Lemma joy_callback_defined_witness :
  joy_topic_callback {| msg.axes := [0.5; -1; 0] |} init_globals
  = Some (Globals 0.08 (Vel_cmd (-1) 0.5 0.05 3)
            (Orientation 0 0 0 0.2 0 0 0) (Orientation 0 0 0 0.2 0 0 0)
            (Encoders 0 0 0 0) 20 (Wheel_position 0 0) (Inner_wheel 0 0)).
Proof.
  destruct (joy_callback_defined {| msg.axes := [0.5; -1; 0] |} init_globals)
    as [_ H].
  exact (H 0.5 (-1) [0] eq_refl).
Defined.

Lemma apply_parameter_fields :
  forall (g : globals) (p : msg.ParameterValue),
    apply_parameter g p
    = Globals
        (if String.eqb (msg.name p) "main_loop"
         then msg.double_value p else main_loop g)
        (Vel_cmd (forward (velocity_cmd g)) (turn (velocity_cmd g))
           (if String.eqb (msg.name p) "vel_cmd.forward_gain"
            then msg.double_value p else forward_gain (velocity_cmd g))
           (if String.eqb (msg.name p) "vel_cmd.turn_gain"
            then msg.double_value p else turn_gain (velocity_cmd g)))
        (orientation_imu_measurement g) (orientation_ow_measurement g)
        (encoders_measurement g) (vel_lowpass g) (motor_position g)
        (combined_inner_wheel g).
Proof.
  intros [ml [f t fg tg] imu ow en vl mp ciw] p.
  unfold apply_parameter, set_forward_gain, set_turn_gain, set_main_loop.
  destruct (String.eqb (msg.name p) "vel_cmd.forward_gain");
    destruct (String.eqb (msg.name p) "vel_cmd.turn_gain");
    destruct (String.eqb (msg.name p) "main_loop"); reflexivity.
Qed.

Lemma param_change_callback_fields :
  forall (ps : list msg.ParameterValue) (g : globals),
    fold_left apply_parameter ps g
    = Globals
        (last_value "main_loop" ps (main_loop g))
        (Vel_cmd (forward (velocity_cmd g)) (turn (velocity_cmd g))
           (last_value "vel_cmd.forward_gain" ps (forward_gain (velocity_cmd g)))
           (last_value "vel_cmd.turn_gain" ps (turn_gain (velocity_cmd g))))
        (orientation_imu_measurement g) (orientation_ow_measurement g)
        (encoders_measurement g) (vel_lowpass g) (motor_position g)
        (combined_inner_wheel g).
Proof.
  induction ps as [|p ps IH]; intro g; cbn [fold_left last_value].
  - destruct g as [ml [f t fg tg] imu ow en vl mp ciw]; reflexivity.
  - rewrite IH, apply_parameter_fields; reflexivity.
Qed.

Lemma last_value_absent :
  forall (n : string) (ps : list msg.ParameterValue) (d : R),
    Forall (fun p => msg.name p <> n) ps -> last_value n ps d = d.
Proof.
  intros n ps; induction ps as [|p ps IH]; intros d H; cbn [last_value].
  - reflexivity.
  - inversion H as [|? ? Hp Hps]; subst.
    apply String.eqb_neq in Hp; rewrite Hp. apply IH; exact Hps.
Qed.

Lemma last_value_app :
  forall (n : string) (ps qs : list msg.ParameterValue) (d : R),
    last_value n (ps ++ qs) d = last_value n qs (last_value n ps d).
Proof.
  intros n ps; induction ps as [|p ps IH]; intros qs d; cbn [app last_value].
  - reflexivity.
  - apply IH.
Qed.

(** X2: a parameter event is applied entry by entry and the last entry of
    a name wins: afterwards [main_loop], the forward gain and the turn gain
    each hold the value of the last entry named [main_loop],
    [vel_cmd.forward_gain], [vel_cmd.turn_gain], or their old value when
    the event has no such entry; the commands and every sensor variable
    are unchanged.  In particular an event ending in an entry
    [main_loop := v] leaves [main_loop] at [v]. *)
Theorem param_last_write_wins :
  forall (ev : msg.ParameterEvent) (g : globals),
    let ps := msg.changed_parameters ev in
    param_change_callback ev g
    = Globals
        (last_value "main_loop" ps (main_loop g))
        (Vel_cmd (forward (velocity_cmd g)) (turn (velocity_cmd g))
           (last_value "vel_cmd.forward_gain" ps (forward_gain (velocity_cmd g)))
           (last_value "vel_cmd.turn_gain" ps (turn_gain (velocity_cmd g))))
        (orientation_imu_measurement g) (orientation_ow_measurement g)
        (encoders_measurement g) (vel_lowpass g) (motor_position g)
        (combined_inner_wheel g) /\
    (forall (qs : list msg.ParameterValue) (v : R),
        ps = qs ++ [ {| msg.name := "main_loop"; msg.double_value := v |} ] ->
        main_loop (param_change_callback ev g) = v).
Proof.
  intros ev g ps; unfold param_change_callback; fold ps.
  rewrite param_change_callback_fields.
  split; [reflexivity|].
  intros qs v ->; cbn [main_loop].
  rewrite last_value_app; reflexivity.
Qed.

(** X2 on an event that sets the period twice. *)
Lemma param_last_write_wins_witness :
  main_loop
    (param_change_callback
       {| msg.changed_parameters :=
            [ {| msg.name := "main_loop"; msg.double_value := 2 |};
              {| msg.name := "main_loop"; msg.double_value := 0.5 |} ] |}
       init_globals) = 0.5.
Proof.
  refine (proj2 (param_last_write_wins _ init_globals)
            [ {| msg.name := "main_loop"; msg.double_value := 2 |} ] 0.5 _).
  reflexivity.
Defined.

(** X3: entries of other names are ignored: an event none of whose entries
    is named [vel_cmd.forward_gain], [vel_cmd.turn_gain] or [main_loop]
    (an entry named [vel_lowpass], say) changes no variable at all. *)
Theorem param_unknown_names_ignored :
  forall (ev : msg.ParameterEvent) (g : globals),
    Forall (fun p => msg.name p <> "vel_cmd.forward_gain"%string /\
                     msg.name p <> "vel_cmd.turn_gain"%string /\
                     msg.name p <> "main_loop"%string)
           (msg.changed_parameters ev) ->
    param_change_callback ev g = g.
Proof.
  intros ev g H; unfold param_change_callback.
  rewrite param_change_callback_fields.
  rewrite !last_value_absent.
  - destruct g as [ml [f t fg tg] imu ow en vl mp ciw]; reflexivity.
  - eapply Forall_impl; [|exact H]. intros p (_ & H2 & _); exact H2.
  - eapply Forall_impl; [|exact H]. intros p (H1 & _ & _); exact H1.
  - eapply Forall_impl; [|exact H]. intros p (_ & _ & H3); exact H3.
Qed.

(** X3 on an event that changes [vel_lowpass] and an unknown parameter. *)
Lemma param_unknown_names_ignored_witness :
  param_change_callback
    {| msg.changed_parameters :=
         [ {| msg.name := "vel_lowpass"; msg.double_value := 5 |};
           {| msg.name := "main_loop "; msg.double_value := 1 |} ] |}
    init_globals = init_globals.
Proof.
  apply param_unknown_names_ignored.
  repeat constructor; cbn [msg.name]; discriminate.
Defined.

(** X4: each orientation sample is overwritten wholesale and the two
    sources do not disturb each other: of two messages of one source only
    the later is kept, the two callbacks commute, and after an IMU message
    [a] and an odometry message [b], in either order, the state vector of
    the next cycle starts with [a]'s roll, [a]'s roll rate, minus [b]'s
    pitch and minus [b]'s pitch rate. *)
Theorem orientation_latest_sample :
  forall (a a' b : msg.Orientation) (g : globals) (x : arr6),
    orientation_imu_topic_callback a' (orientation_imu_topic_callback a g)
    = orientation_imu_topic_callback a' g /\
    orientation_ow_topic_callback a' (orientation_ow_topic_callback a g)
    = orientation_ow_topic_callback a' g /\
    orientation_imu_topic_callback a (orientation_ow_topic_callback b g)
    = orientation_ow_topic_callback b (orientation_imu_topic_callback a g) /\
    let x' := read_state
                (orientation_imu_topic_callback a
                   (orientation_ow_topic_callback b g)) x in
    x'.[0] = msg.roll a /\ x'.[1] = msg.d_roll a /\
    x'.[2] = - msg.pitch b /\ x'.[3] = - msg.d_pitch b /\
    x'.[4] = position (combined_inner_wheel g) /\
    x'.[5] = velocity (combined_inner_wheel g).
Proof.
  intros a a' b g x.
  split; [reflexivity|]. split; [reflexivity|]. split; [reflexivity|].
  cbn [read_state orientation_imu_topic_callback orientation_ow_topic_callback
       orientation_imu_measurement orientation_ow_measurement
       combined_inner_wheel orientation_of_msg roll d_roll pitch d_pitch
       get set e0 e1 e2 e3 e4 e5].
  repeat split; ring.
Qed.

Lemma cprToRad_opp : forall x : R, cprToRad (x * -1) = - cprToRad x.
Proof. intro x; unfold cprToRad; field. Qed.

(** X5: the encoder callback mirrors the left wheel: the stored left
    position and velocity are the negated conversions of the raw ones, the
    combined velocity is the conversion of half the difference of the raw
    right and left velocities, so that two encoders reporting the same raw
    velocity give a combined velocity of 0; nothing but the encoder sample
    and the combined wheel state is written. *)
Theorem encoders_mirror_left :
  forall (m : msg.Encoders) (g : globals),
    let g' := encoders_topic_callback m g in
    position_left (encoders_measurement g')
    = - cprToRad (msg.position (msg.encoder1 m)) /\
    velocity_left (encoders_measurement g')
    = - cprToRad (msg.velocity (msg.encoder1 m)) /\
    velocity (combined_inner_wheel g')
    = cprToRad ((msg.velocity (msg.encoder0 m)
                 - msg.velocity (msg.encoder1 m)) / 2) /\
    (msg.velocity (msg.encoder0 m) = msg.velocity (msg.encoder1 m) ->
     velocity (combined_inner_wheel g') = 0) /\
    main_loop g' = main_loop g /\
    velocity_cmd g' = velocity_cmd g /\
    orientation_imu_measurement g' = orientation_imu_measurement g /\
    orientation_ow_measurement g' = orientation_ow_measurement g /\
    vel_lowpass g' = vel_lowpass g /\
    motor_position g' = motor_position g.
Proof.
  intros m g g'; subst g'.
  cbn [encoders_topic_callback encoders_measurement combined_inner_wheel
       position_left velocity_left velocity_right velocity main_loop
       velocity_cmd orientation_imu_measurement orientation_ow_measurement
       vel_lowpass motor_position].
  split; [apply cprToRad_opp|]. split; [apply cprToRad_opp|].
  split; [unfold cprToRad; field|].
  split; [|repeat split].
  intros ->; unfold cprToRad; field.
Qed.

(** X5 on a robot rolling straight: both raw velocities 300 ticks per
    second. *)
Lemma encoders_mirror_left_witness :
  velocity
    (combined_inner_wheel
       (encoders_topic_callback
          {| msg.encoder0 := {| msg.position := 10; msg.velocity := 300 |};
             msg.encoder1 := {| msg.position := 20; msg.velocity := 300 |} |}
          init_globals)) = 0.
Proof.
  refine (proj1 (proj2 (proj2 (proj2 (encoders_mirror_left _ init_globals)))) _).
  reflexivity.
Defined.

Lemma dispatch_never_written :
  forall (e : event) (g g' : globals),
    dispatch e g = Some g' ->
    vel_lowpass g' = vel_lowpass g /\ motor_position g' = motor_position g.
Proof.
  intros e g g' H; destruct e as [m|m|m|m|m]; cbn [dispatch] in H.
  - unfold joy_topic_callback in H.
    destruct (nth_error (msg.axes m) 1); [|discriminate].
    destruct (nth_error (msg.axes m) 0); [|discriminate].
    cbn [bind] in H; injection H as <-; split; reflexivity.
  - injection H as <-; split; reflexivity.
  - injection H as <-; split; reflexivity.
  - injection H as <-; split; reflexivity.
  - injection H as <-; unfold param_change_callback.
    rewrite param_change_callback_fields; split; reflexivity.
Qed.

Lemma spin_some_never_written :
  forall (es : list event) (g g' : globals),
    spin_some es g = Some g' ->
    vel_lowpass g' = vel_lowpass g /\ motor_position g' = motor_position g.
Proof.
  induction es as [|e es IH]; intros g g' H; cbn [spin_some] in H.
  - injection H as <-; split; reflexivity.
  - destruct (dispatch e g) as [g1|] eqn:Hd; [|discriminate].
    cbn [bind] in H.
    destruct (dispatch_never_written _ _ _ Hd) as [H1 H2].
    destruct (IH _ _ H) as [H3 H4].
    split; congruence.
Qed.

Lemma loop_body_globals :
  forall (i : cycle_input) (s s' : machine) (o : cycle_output),
    loop_body i s = Some (s', o) ->
    spin_some (events i) (fst s) = Some (fst s').
Proof.
  intros i s s' o H; unfold loop_body in H.
  destruct (spin_some (events i) (fst s)) as [g'|]; [|discriminate].
  cbn [bind] in H.
  destruct (sleep_request g') as [z|]; [|discriminate].
  cbn [bind] in H. injection H as <- _. reflexivity.
Qed.

(** X6: no callback and no iteration ever writes [vel_lowpass] or
    [motor_position]: after any run, whatever messages arrive (a changed
    [vel_lowpass] parameter included), both hold what they held at the
    start. *)
Theorem never_written_variables :
  forall (inps : list cycle_input) (s s' : machine) (outs : list cycle_output),
    run inps s = Some (s', outs) ->
    vel_lowpass (fst s') = vel_lowpass (fst s) /\
    motor_position (fst s') = motor_position (fst s).
Proof.
  induction inps as [|i inps IH]; intros s s' outs H.
  - cbn [run] in H; injection H as <- _; split; reflexivity.
  - apply run_cons in H as (s1 & o & outs' & Hb & Hr & _).
    apply loop_body_globals, spin_some_never_written in Hb as [H1 H2].
    destruct (IH _ _ _ Hr) as [H3 H4].
    split; congruence.
Qed.

(** X6 on one iteration that receives a changed [vel_lowpass]. *)
Lemma never_written_variables_witness :
  let inps :=
    [ {| now := 0%Z;
         events :=
           [ EvParameter
               {| msg.changed_parameters :=
                    [ {| msg.name := "vel_lowpass";
                         msg.double_value := 5 |} ] |} ] |} ] in
  exists s' outs,
    run inps init_machine = Some (s', outs) /\
    vel_lowpass (fst s') = 20 /\
    motor_position (fst s') = Wheel_position 0 0.
Proof.
  intro inps.
  assert (Hrun : exists s' outs, run inps init_machine = Some (s', outs)).
  { subst inps; cbn [run].
    erewrite loop_body_sub_second; [|reflexivity|cbn; lra].
    cbn [bind fst snd]. eexists; eexists; reflexivity. }
  destruct Hrun as (s' & outs & H).
  exists s', outs; split; [exact H|].
  exact (never_written_variables _ _ _ _ H).
Defined.

(** * Further properties of the loop driver *)

(** X9: what [sleep] is asked for, for every period: a period in
    [[0, 2^32)] is cut down to its whole seconds (the request [z]
    satisfies [z <= period < z + 1]); a period in [(-1, 0)] gives 0; a
    period of -1 or less, or of [2^32] or more, has no defined
    conversion. *)
Theorem sleep_request_cases :
  forall g : globals,
    (0 <= main_loop g < 4294967296 ->
     exists z : Z,
       sleep_request g = Some z /\ (0 <= z <= UINT_MAX)%Z /\
       IZR z <= main_loop g < IZR z + 1) /\
    (-1 < main_loop g < 0 -> sleep_request g = Some 0%Z) /\
    (main_loop g <= -1 -> sleep_request g = None) /\
    (4294967296 <= main_loop g -> sleep_request g = None).
Proof.
  intro g; unfold sleep_request; set (x := main_loop g); clearbody x.
  split; [|split; [|split]].
  - intros [H0 Hmax].
    destruct (base_Int_part x) as [Hle Hgt].
    assert (Hz : (0 <= Int_part x <= UINT_MAX)%Z).
    { split.
      - assert (IZR (-1) < IZR (Int_part x)) by lra.
        apply lt_IZR in H; lia.
      - assert (IZR (Int_part x) < IZR 4294967296) by lra.
        apply lt_IZR in H; unfold UINT_MAX; lia. }
    exists (Int_part x).
    split; [apply float_to_unsigned_nonneg; [exact Hz|lra]|].
    split; [exact Hz|lra].
  - intros [Hlo Hhi]; unfold float_to_unsigned, truncate.
    destruct (Rle_dec 0 x) as [Hx|_]; [lra|].
    rewrite <- (Int_part_spec (- x) 0) by lra. reflexivity.
  - intro Hlo; unfold float_to_unsigned, truncate.
    destruct (Rle_dec 0 x) as [Hx|_]; [lra|].
    destruct (base_Int_part (- x)) as [Hle Hgt].
    assert (H : IZR 0 < IZR (Int_part (- x))) by lra.
    apply lt_IZR in H.
    destruct (Z.leb_spec 0 (- Int_part (- x))); [lia|reflexivity].
  - intro Hhi; unfold float_to_unsigned, truncate.
    destruct (Rle_dec 0 x) as [_|Hx]; [|lra].
    destruct (base_Int_part x) as [Hle Hgt].
    assert (H : IZR 4294967295 < IZR (Int_part x)) by lra.
    apply lt_IZR in H.
    destruct (Z.leb_spec (Int_part x) UINT_MAX) as [Hle'|_];
      [unfold UINT_MAX in Hle'; lia|].
    rewrite andb_false_r; reflexivity.
Qed.

(** X9 at a period of two and a half seconds: [sleep] is asked for 2,
    and at a period of minus two seconds, where nothing is defined. *)
Lemma sleep_request_cases_witness :
  sleep_request (set_main_loop 2.5 init_globals) = Some 2%Z /\
  sleep_request (set_main_loop (-2) init_globals) = None.
Proof.
  split.
  - destruct (sleep_request_cases (set_main_loop 2.5 init_globals))
      as [H _].
    destruct H as (z & Hz & _ & Hlo & Hhi); [cbn; lra|].
    cbn [main_loop set_main_loop] in Hlo, Hhi.
    assert (z = 2%Z) as ->; [|exact Hz].
    assert (H1 : IZR 1 < IZR z) by lra.
    assert (H2 : IZR z < IZR 3) by lra.
    apply lt_IZR in H1, H2; lia.
  - destruct (sleep_request_cases (set_main_loop (-2) init_globals))
      as (_ & _ & H & _).
    apply H; cbn; lra.
Defined.

Lemma last_value_keeps :
  forall (n : string) (ps : list msg.ParameterValue) (d : R),
    forallb (fun p => negb (String.eqb (msg.name p) n)) ps = true ->
    last_value n ps d = d.
Proof.
  intros n ps; induction ps as [|p ps IH]; intros d H; cbn [last_value].
  - reflexivity.
  - cbn [forallb] in H; apply andb_true_iff in H as [Hp Hps].
    apply negb_true_iff in Hp; rewrite Hp. apply IH; exact Hps.
Qed.

Lemma dispatch_keeps_period :
  forall (e : event) (g : globals),
    keeps_period e = true ->
    exists g', dispatch e g = Some g' /\ main_loop g' = main_loop g.
Proof.
  intros [m|m|m|m|m] g H; cbn [dispatch keeps_period] in *.
  - unfold joy_topic_callback.
    destruct (msg.axes m) as [|a0 [|a1 rest]]; cbn [List.length] in H;
      try discriminate.
    cbn [nth_error bind]. eexists; split; reflexivity.
  - eexists; split; reflexivity.
  - eexists; split; reflexivity.
  - eexists; split; reflexivity.
  - eexists; split; [reflexivity|].
    unfold param_change_callback; rewrite param_change_callback_fields.
    cbn [main_loop]. apply last_value_keeps; exact H.
Qed.

Lemma spin_some_keeps_period :
  forall (es : list event) (g : globals),
    forallb keeps_period es = true ->
    exists g', spin_some es g = Some g' /\ main_loop g' = main_loop g.
Proof.
  induction es as [|e es IH]; intros g H; cbn [spin_some].
  - exists g; split; reflexivity.
  - cbn [forallb] in H; apply andb_true_iff in H as [He Hes].
    destruct (dispatch_keeps_period e g He) as (g1 & Hd & Hm).
    rewrite Hd; cbn [bind].
    destruct (IH g1 Hes) as (g' & Hs & Hm').
    exists g'; split; [exact Hs|congruence].
Qed.

(** X10: the loop never pauses at a sub-second period: from a state whose
    period is in [[0, 1)], as long as every Joy message has at least two
    axes and no parameter event names [main_loop], every run is defined,
    keeps the period and asks [sleep] for 0 seconds in every iteration. *)
Theorem run_never_pauses :
  forall (inps : list cycle_input) (s : machine),
    0 <= main_loop (fst s) < 1 ->
    Forall (fun i => forallb keeps_period (events i) = true) inps ->
    exists s' outs,
      run inps s = Some (s', outs) /\
      main_loop (fst s') = main_loop (fst s) /\
      Forall (fun o => slept o = 0%Z) outs.
Proof.
  induction inps as [|i inps IH]; intros s Hs Hev; cbn [run].
  - exists s, []; repeat split. constructor.
  - inversion Hev as [|? ? Hi Hrest]; subst.
    destruct (spin_some_keeps_period _ (fst s) Hi) as (g' & Hspin & Hm).
    rewrite (loop_body_sub_second i s g' Hspin) by (rewrite Hm; exact Hs).
    cbn [bind fst snd].
    destruct (IH (g', cv_locals (control_cycle (fst s) (snd s))))
      as (s' & outs & Hr & Hm' & Hsl);
      [cbn [fst]; rewrite Hm; exact Hs|exact Hrest|].
    rewrite Hr; cbn [bind fst snd].
    eexists; eexists; split; [reflexivity|].
    split; [cbn [fst] in Hm'; congruence|].
    constructor; [reflexivity|exact Hsl].
Qed.

(** X10 on two iterations from the initial state, with an operator
    command, an encoder sample and a changed turn gain arriving. *)
Lemma run_never_pauses_witness :
  let inps :=
    [ {| now := 0%Z;
         events :=
           [ EvJoy {| msg.axes := [0; 1] |};
             EvEncoders
               {| msg.encoder0 := {| msg.position := 5; msg.velocity := 1 |};
                  msg.encoder1 := {| msg.position := -5; msg.velocity := -1 |} |};
             EvParameter
               {| msg.changed_parameters :=
                    [ {| msg.name := "vel_cmd.turn_gain";
                         msg.double_value := 2 |} ] |} ] |};
      {| now := 1%Z; events := [] |} ] in
  exists s' outs,
    run inps init_machine = Some (s', outs) /\
    main_loop (fst s') = main_loop (fst init_machine) /\
    Forall (fun o => slept o = 0%Z) outs.
Proof.
  intro inps; apply run_never_pauses.
  - cbn; lra.
  - subst inps; repeat constructor.
Defined.

(** * Further properties of the control cycle *)

Lemma read_state_fresh :
  forall (g : globals) (x y : arr6), read_state g x = read_state g y.
Proof. intros g [] []; reflexivity. Qed.

(** X12: what an iteration remembers: the values computed by a cycle
    depend on the locals only through the low-pass velocity and the
    target at indices 0 to 4; the previous state vector, the previous
    control scalar and the previous velocity target have no influence. *)
Theorem cycle_memory :
  forall (g : globals) (l1 l2 : locals),
    velocity_lp l1 = velocity_lp l2 ->
    (forall i : nat, i <> 5%nat -> (target_w l1).[i] = (target_w l2).[i]) ->
    control_cycle g l1 = control_cycle g l2.
Proof.
  intros g [u1 lp1 x1 w1] [u2 lp2 x2 w2] Hlp Hw; cbn [velocity_lp target_w] in *.
  unfold control_cycle; cbn [state_x target_w velocity_lp].
  rewrite (read_state_fresh g x1 x2), Hlp.
  assert (Hi : integrate_command (velocity_cmd g) w1
               = integrate_command (velocity_cmd g) w2).
  { pose proof (Hw 0%nat ltac:(lia)) as H0.
    pose proof (Hw 1%nat ltac:(lia)) as H1.
    pose proof (Hw 2%nat ltac:(lia)) as H2.
    pose proof (Hw 3%nat ltac:(lia)) as H3.
    pose proof (Hw 4%nat ltac:(lia)) as H4.
    destruct w1, w2; cbn [get e0 e1 e2 e3 e4] in *; subst.
    reflexivity. }
  unfold update_target; rewrite Hi; reflexivity.
Qed.

(** X12 on the initial locals and locals that differ in the state vector,
    the control scalar and the velocity target. *)
Lemma cycle_memory_witness :
  control_cycle init_globals init_locals
  = control_cycle init_globals
      {| motor_increment := 9; velocity_lp := 0;
         state_x := Arr6 1 2 3 4 5 6;
         target_w := Arr6 0.1415 0 0 0 0 8 |}.
Proof.
  apply cycle_memory; [reflexivity|].
  intros i Hi.
  do 5 (destruct i as [|i]; [reflexivity|]).
  destruct i as [|i]; [contradiction|reflexivity].
Defined.

(** X13: the upright equilibrium is a rest point of the cycle: when the
    measured state equals the target at indices 0 to 4, the wheel velocity
    and the low-pass velocity are 0 and the operator gives no forward
    command, the control scalar and [pwm_target] are 0, the target keeps
    its indices 0 to 4 and has velocity target 0, the low-pass velocity
    stays 0, and with no turn command both motor setpoints are 0. *)
Theorem equilibrium_rest :
  forall (g : globals) (l : locals) (t : Time),
    roll (orientation_imu_measurement g) = (target_w l).[0] ->
    d_roll (orientation_imu_measurement g) = (target_w l).[1] ->
    - pitch (orientation_ow_measurement g) = (target_w l).[2] ->
    - d_pitch (orientation_ow_measurement g) = (target_w l).[3] ->
    position (combined_inner_wheel g) = (target_w l).[4] ->
    velocity (combined_inner_wheel g) = 0 ->
    forward (velocity_cmd g) = 0 ->
    velocity_lp l = 0 ->
    let v := control_cycle g l in
    motor_increment (cv_locals v) = 0 /\
    pwm_target v = 0 /\
    velocity_lp (cv_locals v) = 0 /\
    (forall i : nat, i <> 5%nat ->
       (target_w (cv_locals v)).[i] = (target_w l).[i]) /\
    (target_w (cv_locals v)).[5] = 0 /\
    (turn (velocity_cmd g) = 0 ->
     msg.motor1_setpoint (motors_msg t v) = 0 /\
     msg.motor0_setpoint (motors_msg t v) = 0).
Proof.
  intros g l t H0 H1 H2 H3 H4 H5 Hf Hlp v.
  set (x := read_state g (state_x l)).
  set (w := integrate_command (velocity_cmd g) (target_w l)).
  assert (Hx : x.[0] = (target_w l).[0] /\ x.[1] = (target_w l).[1] /\
               x.[2] = (target_w l).[2] /\ x.[3] = (target_w l).[3] /\
               x.[4] = (target_w l).[4] /\ x.[5] = 0).
  { rewrite <- H0, <- H1, <- H2, <- H3, <- H4, <- H5.
    subst x; cbn [read_state get set e0 e1 e2 e3 e4 e5].
    repeat split; ring. }
  destruct Hx as (X0 & X1 & X2 & X3 & X4 & X5).
  assert (W4 : w.[4] = (target_w l).[4]).
  { subst w; unfold integrate_command.
    rewrite get_set_other, get_set_same by lia. rewrite Hf; ring. }
  assert (W5 : w.[5] = 0).
  { subst w; unfold integrate_command.
    rewrite get_set_same by lia. rewrite Hf; ring. }
  assert (Wi : forall i, i <> 4%nat -> i <> 5%nat -> w.[i] = (target_w l).[i]).
  { intros i Hi4 Hi5; subst w; apply integrate_command_other; assumption. }
  assert (Hclamp : limit_delta x w = w).
  { apply limit_delta_inside. rewrite W4, X4. pose proof PI_RGT_0; lra. }
  assert (Hu : feedback x w control_k = 0).
  { rewrite feedback_control_law; apply control_law_zero_error.
    intros i Hi.
    do 4 (destruct i as [|i];
          [rewrite Wi by lia; first [rewrite X0|rewrite X1|rewrite X2|rewrite X3];
           ring|]).
    destruct i as [|i]; [rewrite W4, X4; ring|].
    destruct i as [|i]; [rewrite W5, X5; ring|lia]. }
  assert (Hpwm : pwm_target v = 0).
  { subst v; cbn [control_cycle pwm_target]; fold x; unfold update_target;
      fold w. rewrite Hclamp, Hu, Hlp, X5. field. }
  split.
  { subst v; cbn [control_cycle cv_locals motor_increment]; fold x.
    unfold update_target; fold w. rewrite Hclamp; exact Hu. }
  split; [exact Hpwm|].
  split.
  { subst v; cbn [control_cycle cv_locals velocity_lp]; fold x.
    rewrite Hlp, X5; field. }
  split.
  { intros i Hi; subst v; cbn [control_cycle cv_locals target_w]; fold x.
    unfold update_target; fold w. rewrite Hclamp.
    destruct (Nat.eq_dec i 4) as [->|Hi4]; [exact W4|apply Wi; assumption]. }
  split.
  { subst v; cbn [control_cycle cv_locals target_w]; fold x.
    unfold update_target; fold w. rewrite Hclamp; exact W5. }
  intro Ht.
  assert (HL : pwm_left v = 0).
  { change (pwm_left v) with (pwm_target v
      - turn (velocity_cmd g) * turn_gain (velocity_cmd g)).
    rewrite Hpwm, Ht; ring. }
  assert (HR : pwm_right v = 0).
  { change (pwm_right v) with (pwm_target v
      + turn (velocity_cmd g) * turn_gain (velocity_cmd g)).
    rewrite Hpwm, Ht; ring. }
  cbn [motors_msg msg.motor1_setpoint msg.motor0_setpoint].
  rewrite HL, HR; unfold radToCpr; pose proof PI_neq0.
  split; field; assumption.
Qed.

(** X13 on the robot standing upright at the initial target: roll 0.1415,
    everything else 0. *)
Lemma equilibrium_rest_witness :
  let g := {| main_loop := 0.08;
              velocity_cmd := Vel_cmd 0 0 0.05 3;
              orientation_imu_measurement := Orientation 0.1415 0 0 0 0 0 0;
              orientation_ow_measurement := Orientation 0 0 0 0 0 0 0;
              encoders_measurement := Encoders 0 0 0 0;
              vel_lowpass := 20;
              motor_position := Wheel_position 0 0;
              combined_inner_wheel := Inner_wheel 0 0 |} in
  let v := control_cycle g init_locals in
  motor_increment (cv_locals v) = 0 /\
  pwm_target v = 0 /\
  msg.motor1_setpoint (motors_msg 0%Z v) = 0 /\
  msg.motor0_setpoint (motors_msg 0%Z v) = 0.
Proof.
  intros g v.
  destruct (equilibrium_rest g init_locals 0%Z)
    as (Hu & Hp & _ & _ & _ & Hm);
    try reflexivity; try (cbn; lra).
  fold v in Hu, Hp, Hm.
  destruct (Hm eq_refl) as [H1 H0].
  repeat split; assumption.
Defined.

(** X14: the two motor setpoints mirror each other: their sum is the
    conversion to ticks of twice the turn differential, their difference
    (right minus left) the conversion of twice [pwm_target]; with no turn
    command the left setpoint is the negated right setpoint, and with
    [pwm_target] 0 the two setpoints are equal. *)
Theorem motors_mirrored :
  forall (g : globals) (l : locals) (t : Time),
    let v := control_cycle g l in
    let c := velocity_cmd g in
    let m := motors_msg t v in
    msg.motor0_setpoint m + msg.motor1_setpoint m
    = radToCpr (2 * (turn c * turn_gain c)) /\
    msg.motor0_setpoint m - msg.motor1_setpoint m
    = radToCpr (2 * pwm_target v) /\
    (turn c = 0 -> msg.motor1_setpoint m = - msg.motor0_setpoint m) /\
    (pwm_target v = 0 -> msg.motor1_setpoint m = msg.motor0_setpoint m).
Proof.
  intros g l t v c m; subst m.
  cbn [motors_msg msg.motor1_setpoint msg.motor0_setpoint].
  change (pwm_left v) with (pwm_target v - turn c * turn_gain c).
  change (pwm_right v) with (pwm_target v + turn c * turn_gain c).
  unfold radToCpr; pose proof PI_neq0 as Hpi.
  split; [field; exact Hpi|]. split; [field; exact Hpi|].
  split.
  - intros ->; field; exact Hpi.
  - intros ->; field; exact Hpi.
Qed.

(** X14 in the first cycle of the process, where no turn is commanded. *)
Lemma motors_mirrored_witness :
  let m := motors_msg 0%Z (control_cycle init_globals init_locals) in
  msg.motor1_setpoint m = - msg.motor0_setpoint m.
Proof.
  intro m.
  destruct (motors_mirrored init_globals init_locals 0%Z) as (_ & _ & H & _).
  apply H; reflexivity.
Defined.

(** X15: what the Balance message reports: its six roll and velocity
    fields carry the state vector of the cycle in order, that is IMU roll,
    IMU roll rate, minus odometry pitch, minus odometry pitch rate, wheel
    position and wheel velocity as they were before this iteration's
    [spin_some]; its [motor] fields carry [pwm_target] and the two wheel
    targets in radians; neither the target vector nor the control scalar
    is reported; both messages carry the frame [robot] and the one clock
    reading of the iteration. *)
Theorem balance_report_fields :
  forall (i : cycle_input) (s s' : machine) (o : cycle_output),
    loop_body i s = Some (s', o) ->
    let g := fst s in
    let b := balance o in
    msg.setpoint (msg.roll_pid b) = roll (orientation_imu_measurement g) /\
    msg.measurement (msg.roll_pid b) = d_roll (orientation_imu_measurement g) /\
    msg.increment (msg.roll_pid b) = - pitch (orientation_ow_measurement g) /\
    msg.setpoint (msg.velocity_pid b)
    = - d_pitch (orientation_ow_measurement g) /\
    msg.measurement (msg.velocity_pid b) = position (combined_inner_wheel g) /\
    msg.increment (msg.velocity_pid b) = velocity (combined_inner_wheel g) /\
    msg.motor b = pwm_target (control_cycle g (snd s)) /\
    msg.motor_left b
    = msg.motor b - turn (velocity_cmd g) * turn_gain (velocity_cmd g) /\
    msg.motor_right b
    = msg.motor b + turn (velocity_cmd g) * turn_gain (velocity_cmd g) /\
    msg.header b = {| msg.frame_id := "robot"; msg.stamp := now i |} /\
    msg.motors_header (motors o) = msg.header b.
Proof.
  intros i s s' o H g b; subst b g.
  unfold loop_body in H.
  destruct (spin_some (events i) (fst s)) as [g'|]; [|discriminate].
  cbn [bind] in H.
  destruct (sleep_request g') as [z|]; [|discriminate].
  cbn [bind] in H. injection H as _ <-.
  cbn [balance motors balance_msg motors_msg msg.roll_pid msg.velocity_pid
       msg.setpoint msg.measurement msg.increment msg.motor msg.motor_left
       msg.motor_right msg.header msg.motors_header control_cycle cv_locals
       state_x pwm_target pwm_left pwm_right read_state get set
       e0 e1 e2 e3 e4 e5].
  repeat split; ring.
Qed.

(** X15 on an iteration in which an encoder sample arrives: the report
    still shows the wheel at rest. *)
Lemma balance_report_fields_witness :
  let i := {| now := 3%Z;
              events :=
                [ EvEncoders
                    {| msg.encoder0 := {| msg.position := 8192;
                                          msg.velocity := 8192 |};
                       msg.encoder1 := {| msg.position := -8192;
                                          msg.velocity := -8192 |} |} ] |} in
  exists s' o,
    loop_body i init_machine = Some (s', o) /\
    msg.measurement (msg.velocity_pid (balance o)) = 0 /\
    msg.increment (msg.velocity_pid (balance o)) = 0 /\
    velocity (combined_inner_wheel (fst s')) = 2 * PI.
Proof.
  intro i.
  assert (Hb : exists s' o, loop_body i init_machine = Some (s', o) /\
                            velocity (combined_inner_wheel (fst s')) = 2 * PI).
  { subst i. erewrite loop_body_sub_second; [|reflexivity|cbn; lra].
    eexists; eexists; split; [reflexivity|].
    cbn [fst combined_inner_wheel velocity encoders_topic_callback
         velocity_right velocity_left msg.velocity msg.encoder0 msg.encoder1].
    unfold cprToRad; field. }
  destruct Hb as (s' & o & H & Hv).
  exists s', o; split; [exact H|].
  destruct (balance_report_fields i init_machine s' o H)
    as (_ & _ & _ & _ & H4 & H5 & _).
  repeat split; assumption.
Defined.

(** X16: messages take effect one iteration late: what an iteration
    publishes and the locals it leaves do not depend on the messages that
    its own [spin_some] dispatches; two iterations from the same machine
    and clock reading that receive different messages publish the same
    Balance and Motors messages. *)
Theorem events_take_effect_next_iteration :
  forall (i j : cycle_input) (s s1 s2 : machine) (o1 o2 : cycle_output),
    now i = now j ->
    loop_body i s = Some (s1, o1) ->
    loop_body j s = Some (s2, o2) ->
    balance o1 = balance o2 /\ motors o1 = motors o2 /\ snd s1 = snd s2.
Proof.
  intros i j s s1 s2 o1 o2 Hnow H1 H2.
  unfold loop_body in H1, H2.
  destruct (spin_some (events i) (fst s)) as [g1|]; [|discriminate].
  destruct (spin_some (events j) (fst s)) as [g2|]; [|discriminate].
  cbn [bind] in H1, H2.
  destruct (sleep_request g1) as [z1|]; [|discriminate].
  destruct (sleep_request g2) as [z2|]; [|discriminate].
  cbn [bind] in H1, H2.
  injection H1 as <- <-. injection H2 as <- <-.
  cbn [balance motors snd]. rewrite Hnow. repeat split.
Qed.

(** X16 on an iteration with and without an operator command. *)
Lemma events_take_effect_next_iteration_witness :
  let i := {| now := 0%Z; events := [EvJoy {| msg.axes := [1; 1] |}] |} in
  let j := {| now := 0%Z; events := [] |} in
  exists s1 o1 s2 o2,
    loop_body i init_machine = Some (s1, o1) /\
    loop_body j init_machine = Some (s2, o2) /\
    fst s1 <> fst s2 /\
    balance o1 = balance o2 /\ motors o1 = motors o2 /\ snd s1 = snd s2.
Proof.
  intros i j.
  assert (Hi : exists s1 o1, loop_body i init_machine = Some (s1, o1) /\
                             forward (velocity_cmd (fst s1)) = 1).
  { subst i. erewrite loop_body_sub_second; [|reflexivity|cbn; lra].
    eexists; eexists; split; reflexivity. }
  assert (Hj : exists s2 o2, loop_body j init_machine = Some (s2, o2) /\
                             forward (velocity_cmd (fst s2)) = 0).
  { subst j. erewrite loop_body_sub_second; [|reflexivity|cbn; lra].
    eexists; eexists; split; reflexivity. }
  destruct Hi as (s1 & o1 & H1 & F1), Hj as (s2 & o2 & H2 & F2).
  exists s1, o1, s2, o2.
  split; [exact H1|]. split; [exact H2|].
  split; [intro E; rewrite E, F2 in F1; lra|].
  exact (events_take_effect_next_iteration i j init_machine s1 s2 o1 o2
           eq_refl H1 H2).
Defined.

(** X17: the low-pass velocity never leaves the range of what it is fed:
    if the low-pass velocity starts within [[-M, M]] and every wheel
    velocity reported during a run (the [velocity.increment] field of the
    Balance messages) is within [[-M, M]], the low-pass velocity is within
    [[-M, M]] at the end of the run. *)
Theorem lowpass_bounded :
  forall (inps : list cycle_input) (s s' : machine) (outs : list cycle_output)
         (M : R),
    run inps s = Some (s', outs) ->
    Rabs (velocity_lp (snd s)) <= M ->
    Forall (fun o => Rabs (msg.increment (msg.velocity_pid (balance o))) <= M)
           outs ->
    Rabs (velocity_lp (snd s')) <= M.
Proof.
  induction inps as [|i inps IH]; intros s s' outs M H Hlp Hv.
  - cbn [run] in H; injection H as <- _; exact Hlp.
  - apply run_cons in H as (s1 & o & outs' & Hb & Hr & ->).
    inversion Hv as [|? ? Ho Houts]; subst.
    apply (IH s1 s' outs' M Hr); [|exact Houts].
    rewrite (loop_body_locals _ _ _ _ Hb).
    assert (Hx : msg.increment (msg.velocity_pid (balance o))
                 = velocity (combined_inner_wheel (fst s))).
    { unfold loop_body in Hb.
      destruct (spin_some (events i) (fst s)) as [g'|]; [|discriminate].
      cbn [bind] in Hb.
      destruct (sleep_request g') as [z|]; [|discriminate].
      cbn [bind] in Hb. injection Hb as _ <-. reflexivity. }
    rewrite Hx in Ho.
    cbn [control_cycle cv_locals velocity_lp].
    change ((read_state (fst s) (state_x (snd s))).[5])
      with (velocity (combined_inner_wheel (fst s))).
    revert Hlp Ho; unfold Rabs.
    repeat (destruct (Rcase_abs _)); intros; lra.
Qed.

(** X17 on two idle iterations from a machine whose wheels turn at
    1 rad/s. *)
Lemma lowpass_bounded_witness :
  let g := {| main_loop := 0.08;
              velocity_cmd := Vel_cmd 0 0 0.05 3;
              orientation_imu_measurement := Orientation 0 0 0 0.2 0 0 0;
              orientation_ow_measurement := Orientation 0 0 0 0.2 0 0 0;
              encoders_measurement := Encoders 0 0 1 1;
              vel_lowpass := 20;
              motor_position := Wheel_position 0 0;
              combined_inner_wheel := Inner_wheel 0 1 |} in
  let inps := [ {| now := 0%Z; events := [] |};
                {| now := 1%Z; events := [] |} ] in
  exists s' outs,
    run inps (g, init_locals) = Some (s', outs) /\
    Rabs (velocity_lp (snd s')) <= 1.
Proof.
  intros g inps.
  assert (Hrun : exists s' outs,
             run inps (g, init_locals) = Some (s', outs) /\
             Forall (fun o =>
                       Rabs (msg.increment (msg.velocity_pid (balance o))) <= 1)
                    outs).
  { subst inps; cbn [run].
    do 2 (erewrite loop_body_sub_second; [|reflexivity|cbn; lra];
          cbn [bind fst snd]).
    eexists; eexists; split; [reflexivity|].
    assert (H1 : Rabs 1 <= 1) by (rewrite Rabs_R1; lra).
    constructor; [exact H1|]. constructor; [exact H1|]. constructor. }
  destruct Hrun as (s' & outs & H & Hv).
  exists s', outs; split; [exact H|].
  apply (lowpass_bounded inps (g, init_locals) s' outs 1 H); [|exact Hv].
  cbn [snd velocity_lp init_locals]; rewrite Rabs_R0; lra.
Defined.

Lemma last_value_idempotent :
  forall (n : string) (ps : list msg.ParameterValue) (d : R),
    last_value n ps (last_value n ps d) = last_value n ps d.
Proof.
  intros n ps d.
  assert (H : (forall d1 d2, last_value n ps d1 = last_value n ps d2) \/
              (forall d1, last_value n ps d1 = d1)).
  { induction ps as [|p ps IH]; cbn [last_value].
    - right; reflexivity.
    - destruct IH as [IH|IH].
      + left; intros d1 d2; apply IH.
      + destruct (String.eqb (msg.name p) n).
        * left; intros d1 d2; rewrite !IH; reflexivity.
        * right; exact IH. }
  destruct H as [H|H]; [apply H|rewrite !H; reflexivity].
Qed.

(** X18: every callback overwrites: a message delivered twice in a row
    leaves the variables as delivering it once does, for each of the five
    kinds of message. *)
Theorem dispatch_idempotent :
  forall (e : event) (g g' : globals),
    dispatch e g = Some g' -> dispatch e g' = Some g'.
Proof.
  intros [m|m|m|m|m] g g' H; cbn [dispatch] in *.
  - unfold joy_topic_callback in *.
    destruct (nth_error (msg.axes m) 1) as [a1|]; [|discriminate].
    destruct (nth_error (msg.axes m) 0) as [a0|]; [|discriminate].
    cbn [bind] in *. injection H as <-. reflexivity.
  - injection H as <-; reflexivity.
  - injection H as <-; reflexivity.
  - injection H as <-; reflexivity.
  - injection H as <-; unfold param_change_callback.
    rewrite !param_change_callback_fields.
    cbn [main_loop velocity_cmd forward turn forward_gain turn_gain
         orientation_imu_measurement orientation_ow_measurement
         encoders_measurement vel_lowpass motor_position combined_inner_wheel].
    rewrite !last_value_idempotent; reflexivity.
Qed.

(** X18 on a parameter event that sets the forward gain twice. *)
Lemma dispatch_idempotent_witness :
  let e := EvParameter
             {| msg.changed_parameters :=
                  [ {| msg.name := "vel_cmd.forward_gain";
                       msg.double_value := 1 |};
                    {| msg.name := "vel_cmd.forward_gain";
                       msg.double_value := 0.1 |} ] |} in
  exists g', dispatch e init_globals = Some g' /\
             dispatch e g' = Some g' /\
             forward_gain (velocity_cmd g') = 0.1.
Proof.
  intro e.
  assert (H : exists g', dispatch e init_globals = Some g' /\
                         forward_gain (velocity_cmd g') = 0.1).
  { eexists; split; reflexivity. }
  destruct H as (g' & H & Hf).
  exists g'; split; [exact H|]. split; [|exact Hf].
  exact (dispatch_idempotent e init_globals g' H).
Defined.
